(** * GeoMap picture extractor: shallow embedding of
      [plugins/picture_extractor.py] and its properties.

    The commands of the plugin ([config], [setup], [extract]) and the frame
    sampler [extract_video] are embedded as state-passing functions over an
    explicit model of what they touch: the file system, the current
    directory of the process, the session dictionary [ctx['PES']], the text
    echoed to the terminal and the answers typed at the prompts. *)

From Stdlib Require Import Ascii.
From stdpp Require Import base option list gmap sets strings pretty.

Open Scope string_scope.
Open Scope list_scope.
Open Scope stdpp_scope.
Open Scope nat_scope.

(** ** Paths and the file system *)

(** An absolute path is the list of its components, root first;
    [f"{working}/input/images"] is [working ++ ["input"; "images"]] and
    [os.path.join(source, f)] is [source ++ [f]] for a file name [f]. *)
Abbreviation path := (list string).

Definition show_path (p : path) : string :=
  foldr (λ c s, "/" +:+ c +:+ s) "" p.

(** A regular file carries its bytes and whether the process may read it. *)
Inductive node : Type :=
| Dir
| File (readable : bool) (data : string).

#[global] Instance node_eq_dec : EqDecision node.
Proof. solve_decision. Defined.

Abbreviation filesystem := (gmap (list string) node).

Definition is_dir (o : option node) : bool :=
  match o with Some Dir => true | _ => false end.

Definition is_file (o : option node) : bool :=
  match o with Some (File _ _) => true | _ => false end.

(** [os.path.exists] and [os.path.isdir]. *)
Definition path_exists (fs : filesystem) (p : path) : bool :=
  bool_decide (is_Some (fs !! p)).

Definition path_isdir (fs : filesystem) (p : path) : bool :=
  is_dir (fs !! p).

(** [child_of p k] is the name [n] when [k] is [p/n]. *)
Fixpoint child_of (p k : path) : option string :=
  match p, k with
  | [], [n] => Some n
  | c :: p', c' :: k' => if decide (c = c') then child_of p' k' else None
  | _, _ => None
  end.

(** The entries of directory [p], in the order the map enumerates them
    ([os.listdir] promises no order). *)
Definition children (fs : filesystem) (p : path) : list string :=
  omap (λ kv, child_of p kv.1) (map_to_list fs).

(** All prefixes of a path, shortest first, the path itself last. *)
Fixpoint prefixes (p : path) : list path :=
  match p with
  | [] => [[]]
  | c :: p' => [] :: map (cons c) (prefixes p')
  end.

(** No component of [p], [p] included, names a regular file. *)
Definition dir_capable (fs : filesystem) (p : path) : bool :=
  forallb (λ q, negb (is_file (fs !! q))) (prefixes p).

Definition mkdir_missing (fs : filesystem) (q : path) : filesystem :=
  match fs !! q with
  | None => <[q := Dir]> fs
  | Some _ => fs
  end.

(** The first of the paths [l] that is not there, [d] when all are. *)
Fixpoint first_missing (fs : filesystem) (l : list path) (d : path) : path :=
  match l with
  | [] => d
  | q :: l' =>
      match fs !! q with
      | None => q
      | Some _ => first_missing fs l' d
      end
  end.

(** ** Exceptions, outcomes and the world *)

Inductive exn : Type :=
| UsageError (msg : string)
| FileNotFoundError (p : path)
| FileExistsError (p : path)
| NotADirectoryError (p : path)
| IsADirectoryError (p : path)
| PermissionError (p : path)
| SameFileError (p : path)
| ZeroDivisionError
| Abort.

#[global] Instance exn_eq_dec : EqDecision exn.
Proof. solve_decision. Defined.

Inductive outcome (A : Type) : Type :=
| Ok (a : A)
| Raise (e : exn).
Arguments Ok {A} a.
Arguments Raise {A} e.

(** What the caller types at a prompt, as click's converters see it. *)
Inductive answer : Type :=
| AnsBool (b : bool)
| AnsInt (z : Z)
| AnsText (s : string).

Record world : Type := World {
  fs : gmap (list string) node;     (* the file system *)
  cwd : list string;                (* current directory of the process *)
  ctx : gmap string (list string);  (* ctx['PES'] *)
  stdout : list string;             (* lines written by click.echo *)
  stdin : list answer               (* answers not yet consumed *)
}.

Definition set_fs (f : filesystem) (w : world) : world :=
  World f (cwd w) (ctx w) (stdout w) (stdin w).
Definition set_cwd (d : path) (w : world) : world :=
  World (fs w) d (ctx w) (stdout w) (stdin w).
Definition set_ctx (c : gmap string (list string)) (w : world) : world :=
  World (fs w) (cwd w) c (stdout w) (stdin w).
Definition set_stdout (o : list string) (w : world) : world :=
  World (fs w) (cwd w) (ctx w) o (stdin w).
Definition set_stdin (i : list answer) (w : world) : world :=
  World (fs w) (cwd w) (ctx w) (stdout w) i.

(** A command is a function of the world that returns or raises, and leaves
    the world as it is at that point. *)
Definition M (A : Type) : Type := world → outcome A * world.

Definition ret {A} (a : A) : M A := λ w, (Ok a, w).
Definition raise {A} (e : exn) : M A := λ w, (Raise e, w).
Definition bind {A B} (m : M A) (k : A → M B) : M B :=
  λ w, match m w with
       | (Ok a, w') => k a w'
       | (Raise e, w') => (Raise e, w')
       end.

Notation "x <- c1 ;; c2" := (bind c1 (λ x, c2))
  (at level 100, c1 at next level, right associativity).
Notation "c1 ;; c2" := (bind c1 (λ _, c2))
  (at level 100, right associativity).

Definition lift {A} (f : world → outcome A) : M A := λ w, (f w, w).
Definition echo (s : string) : M unit :=
  λ w, (Ok tt, set_stdout (stdout w ++ [s]) w).

(** [for x in l: body x] *)
Fixpoint for_each {A} (body : A → M unit) (l : list A) : M unit :=
  match l with
  | [] => ret tt
  | x :: l' => body x ;; for_each body l'
  end.

(** [[x for x in l if p x]] where the test itself may raise. *)
Fixpoint filter_m {A} (p : A → M bool) (l : list A) : M (list A) :=
  match l with
  | [] => ret []
  | x :: l' =>
      b <- p x ;;
      r <- filter_m p l' ;;
      ret (if b then x :: r else r)
  end.

(** ** The [os] and [shutil] calls the plugin makes *)

Definition os_listdir (p : path) : M (list string) :=
  lift (λ w, match fs w !! p with
             | Some Dir => Ok (children (fs w) p)
             | Some (File _ _) => Raise (NotADirectoryError p)
             | None => Raise (FileNotFoundError p)
             end).

(** [os.makedirs(p, exist_ok)]: creates every missing directory on the way
    to [p]; fails when [p] is already there unless [exist_ok] and [p] is a
    directory, and when a component is a regular file: the error then names
    the first directory that had to be made, the one right below that file,
    and nothing has been made. *)
Definition os_makedirs (p : path) (exist_ok : bool) : M unit :=
  λ w, match fs w !! p with
       | Some Dir =>
           if exist_ok then (Ok tt, w) else (Raise (FileExistsError p), w)
       | Some (File _ _) => (Raise (FileExistsError p), w)
       | None =>
           if dir_capable (fs w) p
           then (Ok tt, set_fs (foldl mkdir_missing (fs w) (prefixes p)) w)
           else (Raise (NotADirectoryError
                          (first_missing (fs w) (prefixes p) p)), w)
       end.

Definition os_getcwd : M path := λ w, (Ok (cwd w), w).

Definition os_chdir (p : path) : M unit :=
  λ w, match fs w !! p with
       | Some Dir => (Ok tt, set_cwd p w)
       | Some (File _ _) => (Raise (NotADirectoryError p), w)
       | None => (Raise (FileNotFoundError p), w)
       end.

(** ** [config] *)

Definition ctx_store (key : string) (p : path) : M unit :=
  λ w, (Ok tt, set_ctx (<[key := p]> (ctx w)) w).

Definition ctx_get (key : string) : M (option path) :=
  λ w, (Ok (ctx w !! key), w).

Definition msg_working_not_empty (p : path) : string :=
  "Selected working directory (" +:+ show_path p +:+ ") is not empty!".
Definition msg_working_unknown (p : path) : string :=
  "Unknown issue encountered while setting working directory to: "
  +:+ show_path p.
Definition msg_source_missing (p : path) : string :=
  "Selected source directory " +:+ show_path p +:+ " does not exist!".
Definition msg_source_empty (p : path) : string :=
  "Selected source directory " +:+ show_path p +:+ " is empty!".
Definition msg_source_unknown (p : path) : string :=
  "Unknown issue encountered while setting source directory to: "
  +:+ show_path p.
Definition msg_dest_unknown (p : path) : string :=
  "Unknown issue encountered while setting destination directory to: "
  +:+ show_path p.

(** [os.path.isdir(p) and not os.listdir(p)] *)
Definition isdir_and_empty (p : path) : M bool :=
  λ w, if path_isdir (fs w) p
       then (l <- os_listdir p ;; ret (bool_decide (l = []))) w
       else (Ok false, w).

(** Lines 43-55: the [if working:] block. *)
Definition config_working (working : path) : M unit :=
  λ w, if negb (path_exists (fs w) working) then
         (echo ("Creating working directory: " +:+ show_path working) ;;
          os_makedirs working false ;;
          ctx_store "working" working) w
       else
         (e <- isdir_and_empty working ;;
          if (e : bool) then
            echo ("Setting working directory to: " +:+ show_path working) ;;
            ctx_store "working" working
          else λ w', if path_isdir (fs w') working
                     then echo (msg_working_not_empty working) w'
                     else echo (msg_working_unknown working) w') w.

(** Lines 56-66: the [if source:] block. *)
Definition config_source (source : path) : M unit :=
  λ w, if negb (path_exists (fs w) source) then
         echo (msg_source_missing source) w
       else
         (e <- isdir_and_empty source ;;
          if (e : bool) then echo (msg_source_empty source)
          else λ w', if path_isdir (fs w') source
                     then (echo ("Setting source directory to: "
                                 +:+ show_path source) ;;
                           ctx_store "source" source) w'
                     else echo (msg_source_unknown source) w') w.

(** Lines 67-77: the [if dest:] block. *)
Definition config_dest (dest : path) : M unit :=
  λ w, if negb (path_exists (fs w) dest) then
         (echo ("Creating destination directory: " +:+ show_path dest) ;;
          os_makedirs dest false ;;
          ctx_store "dest" dest) w
       else if path_isdir (fs w) dest then
         (echo ("Setting destination directory to: " +:+ show_path dest) ;;
          ctx_store "dest" dest) w
       else echo (msg_dest_unknown dest) w.

(** An option that was not given is [None] and its block is skipped. *)
Definition when_given (o : option path) (k : path → M unit) : M unit :=
  match o with
  | Some p => k p
  | None => ret tt
  end.

Definition config_default_locations (working source dest : option path)
  : M unit :=
  when_given working config_working ;;
  when_given source config_source ;;
  when_given dest config_dest.

(** ** Libraries the plugin calls

    [filetype], [glob] and [cv2] are not part of the repository; what they
    compute from the bytes of a file is kept abstract. *)
Class Libraries : Type := {
  (* filetype: the MIME type matched by the signature bytes, if any *)
  magic : string → option string;
  (* glob: does this pattern match this file name *)
  fnmatch : string → string → bool;
  (* cv2.VideoCapture: the frames a file decodes to *)
  decode : string → list string;
  (* cv2.imwrite: the bytes of a frame written as JPEG *)
  imencode : string → string
}.

Definition nl : string := String "010"%char "".

Definition parent (p : path) : path := take (length p - 1) p.
Definition basename (p : path) : string := default "" (last p).

(** [shutil.copy(src, dst)] of a regular file. *)
Definition shutil_copy (src dst : path) : M unit :=
  λ w,
    let dst' := if path_isdir (fs w) dst then dst ++ [basename src] else dst in
    if decide (src = dst') then (Raise (SameFileError src), w) else
    match fs w !! src with
    | None => (Raise (FileNotFoundError src), w)
    | Some Dir => (Raise (IsADirectoryError src), w)
    | Some (File false _) => (Raise (PermissionError src), w)
    | Some (File true d) =>
        if path_isdir (fs w) dst' then (Raise (IsADirectoryError dst'), w)
        else if path_isdir (fs w) (parent dst')
        then (Ok tt, set_fs (<[dst' := File true d]> (fs w)) w)
        else (Raise (FileNotFoundError dst'), w)
    end.

(** [shutil.move(src, dst)] of a regular file: a rename, and when the rename
    fails the copy it falls back to fails as well.  [shutil.Error] for a
    destination that is already there is rendered as [FileExistsError].  The
    plugin moves only files it has classified; moving a directory is not
    modelled. *)
Definition shutil_move (src dst : path) : M unit :=
  λ w,
    let real_dst :=
      if path_isdir (fs w) dst then dst ++ [basename src] else dst in
    if path_isdir (fs w) dst && path_exists (fs w) real_dst
    then (Raise (FileExistsError real_dst), w)
    else
    match fs w !! src with
    | None => (Raise (FileNotFoundError src), w)
    | Some Dir => (Raise (IsADirectoryError src), w)
    | Some (File r d) =>
        if decide (src = real_dst) then (Ok tt, w)
        else if path_isdir (fs w) real_dst
        then (Raise (IsADirectoryError real_dst), w)
        else if path_isdir (fs w) (parent real_dst)
        then (Ok tt, set_fs (<[real_dst := File r d]> (delete src (fs w))) w)
        else (Raise (FileNotFoundError real_dst), w)
    end.

(** ** Prompts *)

(** [click.prompt(type=T)] asks again until an answer converts under [T];
    when the input ends it aborts. *)
Fixpoint prompt_from {A} (conv : answer → option A) (l : list answer)
  : outcome A * list answer :=
  match l with
  | [] => (Raise Abort, [])
  | a :: l' =>
      match conv a with
      | Some x => (Ok x, l')
      | None => prompt_from conv l'
      end
  end.

Definition click_prompt {A} (conv : world → answer → option A) : M A :=
  λ w, let (r, l) := prompt_from (conv w) (stdin w) in (r, set_stdin l w).

(** [click.echo_via_pager(items)] writes the items one after the other,
    with no line break of its own between them, and ends the line. *)
Definition click_echo_via_pager (items : list string) : M unit :=
  echo (String.concat "" items).

Definition click_BOOL (w : world) (a : answer) : option bool :=
  match a with AnsBool b => Some b | _ => None end.

(** [click.IntRange(lo, hi)] *)
Definition click_IntRange (lo hi : Z) (w : world) (a : answer) : option nat :=
  match a with
  | AnsInt z => if decide (lo ≤ z ≤ hi)%Z then Some (Z.to_nat z) else None
  | _ => None
  end.

(** [click.Path(exists, file_okay, dir_okay)] for an answer that is a file
    name: the name is taken relative to the current directory, and an
    existing path must be readable.  An answer with a directory part
    ([../x.mp4], an absolute path) is outside what is modelled here. *)
Definition click_Path (must_exist file_okay dir_okay : bool)
    (w : world) (a : answer) : option string :=
  match a with
  | AnsText s =>
      match fs w !! (cwd w ++ [s]) with
      | None => if must_exist then None else Some s
      | Some Dir => if dir_okay then Some s else None
      | Some (File r _) => if file_okay && r then Some s else None
      end
  | _ => None
  end.

(** [click.Choice(available)] *)
Definition click_Choice (available : gset string)
    (w : world) (a : answer) : option string :=
  match a with
  | AnsText s => if decide (s ∈ available) then Some s else None
  | _ => None
  end.

(** ** [setup] *)

Section Setup.
Context `{Libraries}.

(** [filetype.guess(p)] opens [p] and matches its first bytes; it has no
    handler of its own for a path it cannot open. *)
Definition filetype_guess (p : path) : M (option string) :=
  lift (λ w, match fs w !! p with
             | Some (File true d) => Ok (magic d)
             | Some (File false _) => Raise (PermissionError p)
             | Some Dir => Raise (IsADirectoryError p)
             | None => Raise (FileNotFoundError p)
             end).

(** Lines 114-115: [istype = lambda f, t: (k := filetype.guess(join(source,
    f))) and k.mime.startswith(t)], as its truth value. *)
Definition istype (source : path) (f t : string) : M bool :=
  k <- filetype_guess (source ++ [f]) ;;
  ret (match k with
       | Some mime => String.prefix t mime
       | None => false
       end).

(** [glob.glob(expr, root_dir=root)] for a pattern over file names: the
    entries of [root] the pattern matches.  A pattern with a directory part
    ([../*.jpg]) is outside what is modelled here. *)
Definition glob_glob (expr : string) (root : path) : M (list string) :=
  λ w, (Ok (if path_isdir (fs w) root
            then filter (λ f, fnmatch expr f = true) (children (fs w) root)
            else []), w).

Definition msg_no_source : string :=
  "No source directory set. Please use the 'config' command to set the "
  +:+ "source directory before running 'setup'.".
Definition msg_no_working : string :=
  "No working directory set. Please use the 'config' command to set the "
  +:+ "working directory before running 'setup'.".
Definition msg_not_a_video (vid : string) : string :=
  "The file you entered (" +:+ vid +:+ ") is not a video!".

(** Lines 124-135. *)
Definition select_images (source : path) : M (list string) :=
  ext_img <- click_prompt click_BOOL ;;
  sel_images <-
    (if (ext_img : bool) then
       img_expr <- click_prompt (click_Path false true true) ;;
       sel <- glob_glob img_expr source ;;
       filter_m (λ img, istype source img "image") sel
     else ret []) ;;
  echo ("Selected " +:+ pretty (length sel_images) +:+ " images." +:+ nl) ;;
  ret sel_images.

(** Lines 145-154: the [while i < ext_vid] loop.  Each turn consumes the
    answers that [click.prompt] rejects and then one candidate; the loop is
    by recursion on the answers left. *)
Fixpoint video_loop (source : path) (ext_vid i : nat)
    (sel_videos : list string) (inp : list answer) (w : world)
  : outcome (list string) * world :=
  if decide (i < ext_vid)%nat then
    match inp with
    | [] => (Raise Abort, set_stdin [] w)
    | a :: inp' =>
        match click_Path true true false w a with
        | None => video_loop source ext_vid i sel_videos inp' w
        | Some vid =>
            match istype source vid "video" (set_stdin inp' w) with
            | (Ok true, w') =>
                video_loop source ext_vid (i + 1) (sel_videos ++ [vid]) inp' w'
            | (Ok false, w') =>
                video_loop source ext_vid i sel_videos inp'
                  (set_stdout (stdout w' ++ [msg_not_a_video vid]) w')
            | (Raise e, w') => (Raise e, w')
            end
        end
    end
  else (Ok sel_videos, set_stdin inp w).

(** Lines 137-155. *)
Definition select_videos (source : path) (videos : list string)
  : M (list string) :=
  ext_vid <- click_prompt (click_IntRange 0 (Z.of_nat (length videos))) ;;
  (if decide (1 ≤ ext_vid)%nat then
     echo "Available videos:" ;;
     click_echo_via_pager ((λ v, "  " +:+ v) <$> videos)
   else ret tt) ;;
  sel_videos <- (λ w, video_loop source ext_vid 0 [] (stdin w) w) ;;
  echo ("Selected " +:+ pretty (length sel_videos) +:+ " videos." +:+ nl) ;;
  ret sel_videos.

Definition unit_video (i : nat) : string := "video" +:+ pretty i.

(** Lines 160-165. *)
Definition materialize (working : path) (sel_images sel_videos : list string)
  : M unit :=
  (if bool_decide (sel_images = []) then ret tt
   else os_makedirs (working ++ ["input"; "images"]) true) ;;
  for_each (λ i, os_makedirs (working ++ ["input"; unit_video i]) true)
    (seq 0 (length sel_videos)) ;;
  os_makedirs (working ++ ["output"]) true.

Definition moved_or_copied (move : bool) : string :=
  if move then "Moved" else "Copied".

(** Lines 169-184. *)
Definition transfer (move : bool) (source working : path)
    (sel_images sel_videos : list string) : M unit :=
  let ufunc := if move then shutil_move else shutil_copy in
  for_each (λ img, ufunc (source ++ [img])
                     (working ++ ["input"; "images"; img])) sel_images ;;
  echo (moved_or_copied move +:+ " " +:+ pretty (length sel_images)
        +:+ " images to working directory." +:+ nl) ;;
  for_each (λ iv, ufunc (source ++ [iv.2])
                    (working ++ ["input"; unit_video iv.1; iv.2]))
    (zip (seq 0 (length sel_videos)) sel_videos) ;;
  echo (moved_or_copied move +:+ " " +:+ pretty (length sel_videos)
        +:+ " videos to working directory." +:+ nl).

(** Lines 112-155: what the caller selects, in the source directory. *)
Definition select (source : path) : M (list string * list string) :=
  source_files <- os_listdir source ;;
  images <- filter_m (λ f, istype source f "image") source_files ;;
  videos <- filter_m (λ f, istype source f "video") source_files ;;
  echo ("Found " +:+ pretty (length images) +:+ " images and "
        +:+ pretty (length videos) +:+ " videos in the source directory."
        +:+ nl) ;;
  sel_images <- select_images source ;;
  sel_videos <- select_videos source videos ;;
  ret (sel_images, sel_videos).

(** Lines 106-187: [setup] once both directories are known to be set. *)
Definition stage (move : bool) (source working : path) : M unit :=
  curdir <- os_getcwd ;;
  os_chdir source ;;
  sel <- select source ;;
  os_chdir working ;;
  materialize working sel.1 sel.2 ;;
  transfer move source working sel.1 sel.2 ;;
  os_chdir curdir.

Definition setup (move : bool) : M unit :=
  source <- ctx_get "source" ;;
  working <- ctx_get "working" ;;
  match source, working with
  | None, _ => raise (UsageError msg_no_source)
  | Some _, None => raise (UsageError msg_no_working)
  | Some source, Some working => stage move source working
  end.

End Setup.

(** ** [extract_video] and [extract] *)

Fixpoint zeros (k : nat) : string :=
  match k with
  | O => ""
  | S k' => String "0"%char (zeros k')
  end.

(** [f"{i:05}"]: decimal, filled with zeros on the left up to width five. *)
Definition fmt05 (i : nat) : string :=
  zeros (5 - String.length (pretty i)) +:+ pretty i.

Definition frame_fname (frame_index : nat) : string :=
  fmt05 frame_index +:+ ".jpg".

Section Extract.
Context `{Libraries}.

(** [cv2.VideoCapture(vpath)]: the frames still to be read; a file that
    cannot be opened gives a capture whose first [read()] already fails. *)
Definition cv2_VideoCapture (vpath : path) : M (list string) :=
  lift (λ w, match fs w !! vpath with
             | Some (File true d) => Ok (decode d)
             | _ => Ok []
             end).

(** [cv2.imwrite(fname, frame)] writes nothing, and does not raise, when the
    file cannot be created. *)
Definition cv2_imwrite (fname : path) (frame : string) : M unit :=
  λ w, if path_isdir (fs w) (parent fname) && negb (path_isdir (fs w) fname)
       then (Ok tt, set_fs (<[fname := File true (imencode frame)]> (fs w)) w)
       else (Ok tt, w).

(** Lines 196-206: the [while True] loop over [v.read()], by recursion on the
    frames the capture still holds. *)
Fixpoint extract_video_loop (v : list string) (output : path) (n : Z)
    (frame_index frame_count : nat) : M unit :=
  match v with
  | [] => ret tt
  | frame :: v' =>
      if decide (n = 0)%Z then raise ZeroDivisionError
      else if decide ((Z.of_nat frame_count `mod` n)%Z = 0%Z) then
        cv2_imwrite (output ++ [frame_fname frame_index]) frame ;;
        extract_video_loop v' output n (frame_index + 1) (frame_count + 1)
      else
        extract_video_loop v' output n frame_index (frame_count + 1)
  end.

(** Lines 189-210; [v.release()] changes nothing that is modelled. *)
Definition extract_video (v : list string) (output : path) (n : Z) : M unit :=
  extract_video_loop v output n 0 0.

Definition msg_extract_no_working : string := msg_no_working.
Definition msg_not_configured : string :=
  "The working directory has not been properly configured. Please run the "
  +:+ "'setup' command before running 'extract'.".
Definition msg_no_input : string :=
  "The working directory contains no input material. Please check that you "
  +:+ "correctly ran the 'setup' command.".
Definition msg_no_files (working : path) (choice : string) : string :=
  "No files exist in " +:+ show_path working +:+ "/input/" +:+ choice.

Definition unit_set (i : nat) : string := "set" +:+ pretty i.

(** Lines 264-278: what one turn of the loop does once the unit is chosen. *)
Definition extract_unit (working : path) (i : nat) (choice : string) : M unit :=
  os_makedirs (working ++ ["output"; unit_set i]) true ;;
  if decide (choice = "images") then
    imgs <- os_listdir (working ++ ["input"; "images"]) ;;
    for_each (λ img, shutil_copy (working ++ ["input"; "images"; img])
                       (working ++ ["output"; unit_set i; img])) imgs
  else if String.prefix "video" choice then
    vname <- os_listdir (working ++ ["input"; choice]) ;;
    match vname with
    | [] => raise (UsageError (msg_no_files working choice))
    | v0 :: _ =>
        video <- cv2_VideoCapture (working ++ ["input"; choice; v0]) ;;
        extract_video video (working ++ ["output"; unit_set i]) 30
    end
  else ret tt.

(** One entry of the run's history: the index of the set, the unit chosen
    for it, and the units that were offered when it was chosen. *)
Record pick : Type := Pick {
  set_index : nat;
  chosen : string;
  offered : gset string
}.

(** Lines 257-278: [for i in range(set_count)], by recursion on the turns
    left.  Next to the outcome it returns the history of the turns begun. *)
Fixpoint extract_loop (working : path) (i turns : nat)
    (available : gset string) (w : world)
  : list pick * (outcome unit * world) :=
  match turns with
  | O => ([], (Ok tt, w))
  | S turns' =>
      match click_prompt (click_Choice available) w with
      | (Raise e, w1) => ([], (Raise e, w1))
      | (Ok choice, w1) =>
          let available' := available ∖ {[choice]} in
          match extract_unit working i choice w1 with
          | (Raise e, w2) => ([Pick i choice available], (Raise e, w2))
          | (Ok _, w2) =>
              let r := extract_loop working (S i) turns' available' w2 in
              (Pick i choice available :: r.1, r.2)
          end
      end
  end.

Definition count_videos (l : list string) : nat :=
  length (filter (λ d, String.prefix "video" d = true) l).

Definition extract : M unit :=
  working <- ctx_get "working" ;;
  match working with
  | None => raise (UsageError msg_extract_no_working)
  | Some working =>
      l1 <- os_listdir working ;;
      l2 <- os_listdir working ;;
      let inp := bool_decide ("input" ∈ l1) in
      let out := bool_decide ("output" ∈ l2) in
      if negb inp && negb out then raise (UsageError msg_not_configured)
      else
        l3 <- os_listdir (working ++ ["input"]) ;;
        l4 <- os_listdir (working ++ ["input"]) ;;
        let videos := count_videos l3 in
        let images := if bool_decide ("images" ∈ l4) then 1 else 0 in
        let max_sets := videos + images in
        if decide (max_sets = 0) then raise (UsageError msg_no_input)
        else
          set_count <- click_prompt (click_IntRange 0 (Z.of_nat max_sets)) ;;
          l5 <- os_listdir (working ++ ["input"]) ;;
          let available : gset string := list_to_set l5 in
          λ w, (extract_loop working 0 set_count available w).2
  end.

End Extract.

(** ** Notions used in the statements *)

(** What [config] rejects, block by block, with the line it echoes. *)
Definition working_rejection (fs : filesystem) (p : path) : option string :=
  match fs !! p with
  | None => None
  | Some Dir => if decide (children fs p = []) then None
                else Some (msg_working_not_empty p)
  | Some (File _ _) => Some (msg_working_unknown p)
  end.

Definition source_rejection (fs : filesystem) (p : path) : option string :=
  match fs !! p with
  | None => Some (msg_source_missing p)
  | Some Dir => if decide (children fs p = []) then Some (msg_source_empty p)
                else None
  | Some (File _ _) => Some (msg_source_unknown p)
  end.

Definition dest_rejection (fs : filesystem) (p : path) : option string :=
  match fs !! p with
  | Some (File _ _) => Some (msg_dest_unknown p)
  | _ => None
  end.

(** [msg] spells out the path [p]. *)
Definition names_path (msg : string) (p : path) : Prop :=
  ∃ pre post, msg = pre +:+ show_path p +:+ post.

(** The candidate an answer names when [click.Path] accepts it and it
    classifies as a video. *)
Definition classified_video `{Libraries} (source : path) (w : world)
    (a : answer) : option string :=
  match click_Path true true false w a with
  | Some vid =>
      match (istype source vid "video" w).1 with
      | Ok true => Some vid
      | _ => None
      end
  | None => None
  end.

(** A command that never changes the current directory, whether it returns
    or raises. *)
Definition keeps_cwd {A} (m : M A) : Prop := ∀ w, cwd (m w).2 = cwd w.

(** One turn of the [extract] loop that completes: from index [i] with
    [S turns] turns left to index [S i] with [turns] left. *)
Inductive turn_ok `{Libraries} (working : path)
  : nat * nat * gset string * world → nat * nat * gset string * world → Prop :=
| TurnOk i turns available w choice w1 w2 :
    click_prompt (click_Choice available) w = (Ok choice, w1) →
    extract_unit working i choice w1 = (Ok tt, w2) →
    turn_ok working (i, S turns, available, w)
                    (S i, turns, available ∖ {[choice]}, w2).

(** A file name: not empty, not [.] or [..], and without a separator. *)
Fixpoint has_separator (s : string) : bool :=
  match s with
  | EmptyString => false
  | String c s' =>
      if decide (c = "/"%char) then true
      else if decide (c = "092"%char) then true
      else has_separator s'
  end.

Definition plain_name (s : string) : bool :=
  negb (has_separator s)
  && negb (bool_decide (s = "")) && negb (bool_decide (s = "."))
  && negb (bool_decide (s = "..")).

(** Every text the caller types is a file name, or a pattern over file
    names: none has a directory part. *)
Definition plain_answer (a : answer) : bool :=
  match a with
  | AnsText s => plain_name s
  | _ => true
  end.

Definition plain_answers (l : list answer) : bool := forallb plain_answer l.

(** One completed turn of the [extract] loop in which [choice] is the unit
    the caller chose. *)
Inductive turn_of `{Libraries} (working : path) (choice : string)
  : nat * nat * gset string * world → nat * nat * gset string * world → Prop :=
| TurnOf i turns available w w1 w2 :
    click_prompt (click_Choice available) w = (Ok choice, w1) →
    extract_unit working i choice w1 = (Ok tt, w2) →
    turn_of working choice (i, S turns, available, w)
                           (S i, turns, available ∖ {[choice]}, w2).

(** A command that touches neither the file system nor the current
    directory: it only reads, echoes and consumes answers. *)
Definition reads_only {A} (m : M A) : Prop :=
  ∀ w, fs (m w).2 = fs w ∧ cwd (m w).2 = cwd w ∧ ctx (m w).2 = ctx w.

(** A directory that exists and has nothing below it. *)
Definition empty_dir (f : filesystem) (p : path) : Prop :=
  f !! p = Some Dir ∧ ∀ r, r ≠ [] → f !! (p ++ r) = None.

(** The places, relative to the working directory, where staging may put a
    directory and where it may put a file. *)
Definition dir_slot (sel_images sel_videos : list string) (r : path) : Prop :=
  r = [] ∨ r = ["input"] ∨ r = ["output"]
  ∨ (r = ["input"; "images"] ∧ sel_images ≠ [])
  ∨ ∃ i, i < length sel_videos ∧ r = ["input"; unit_video i].

Definition file_slot (sel_videos : list string) (r : path) : Prop :=
  (∃ img, r = ["input"; "images"; img])
  ∨ ∃ i vid, sel_videos !! i = Some vid ∧ r = ["input"; unit_video i; vid].

(** Everything below the working directory sits in one of those places. *)
Definition staged_shape (working : path) (sel_images sel_videos : list string)
    (f : filesystem) : Prop :=
  ∀ r nd, f !! (working ++ r) = Some nd →
    match nd with
    | Dir => dir_slot sel_images sel_videos r
    | File _ _ => file_slot sel_videos r
    end.

(** Below the working directory, what is there in [f] is there in [f'],
    directories as directories and files as files. *)
Definition persists (working : path) (f f' : filesystem) : Prop :=
  ∀ r, (f !! (working ++ r) = Some Dir → f' !! (working ++ r) = Some Dir)
       ∧ (is_file (f !! (working ++ r)) = true →
          is_file (f' !! (working ++ r)) = true).

(** A command whose only effect on the file system is to add directories:
    what was there stays as it was, and what is new is a directory.  It
    holds of the world the command leaves whether it returns or raises. *)
Definition only_adds_dirs {A} (m : M A) : Prop :=
  ∀ w, (∀ q nd, fs w !! q = Some nd → fs (m w).2 !! q = Some nd)
       ∧ (∀ q nd, fs (m w).2 !! q = Some nd →
                  fs w !! q = Some nd ∨ nd = Dir).

(** Outside the directory [root] the file system [f'] is [f], except that
    directories on the way to [root] may have been created. *)
Definition outside_kept (root : path) (f f' : filesystem) : Prop :=
  (∀ q nd, f !! q = Some nd → ¬ root `prefix_of` q → f' !! q = Some nd)
  ∧ (∀ q nd, f' !! q = Some nd → ¬ root `prefix_of` q →
             f !! q = Some nd ∨ (nd = Dir ∧ q `prefix_of` root)).

(** A command that writes at and below [root] only, whether it returns or
    raises. *)
Definition writes_below {A} (root : path) (m : M A) : Prop :=
  ∀ w, outside_kept root (fs w) (fs (m w).2).

(** While the selected files are transferred: what lies below the working
    directory keeps the staged shape, and an entry of the source directory is
    what it was in [f0] unless it is a selected file that has been moved. *)
Definition kept (move : bool) (source working : path)
    (sel_images sel_videos : list string) (f0 f : filesystem) : Prop :=
  staged_shape working sel_images sel_videos f
  ∧ ∀ y, f !! (source ++ [y]) = f0 !! (source ++ [y])
         ∨ (move = true ∧ f !! (source ++ [y]) = None
            ∧ y ∈ sel_images ++ sel_videos).

(** The file [t.2] of the source directory has arrived in the unit [t.1]
    with the content it had in [f0], and has left the source if moved. *)
Definition placed (move : bool) (source working : path) (f0 : filesystem)
    (t : string * string) (f : filesystem) : Prop :=
  ∃ b d, f0 !! (source ++ [t.2]) = Some (File b d)
         ∧ f !! (working ++ ["input"; t.1; t.2]) = Some (File b d)
         ∧ (move = true → f !! (source ++ [t.2]) = None).

(** ** Sample instances *)

(** A stand-in for the libraries: a file whose bytes start with [JPG] is an
    image, one that starts with [MP4] a video whose frames are the bytes
    after the tag, one character each. *)
Fixpoint chars (s : string) : list string :=
  match s with
  | EmptyString => []
  | String c s' => String c "" :: chars s'
  end.

Definition sample_magic (d : string) : option string :=
  if String.prefix "JPG" d then Some "image/jpeg"
  else if String.prefix "MP4" d then Some "video/mp4"
  else None.

Definition sample_libs : Libraries := {|
  magic := sample_magic;
  fnmatch := λ _ _, true;
  decode := λ d, if String.prefix "MP4" d
                 then chars (String.substring 3 (String.length d - 3) d)
                 else [];
  imencode := λ f, "JPG" +:+ f
|}.

Definition sample_fs : gmap (list string) node :=
  list_to_map [([], Dir); (["home"], Dir); (["sd"], Dir);
               (["sd"; "a.mp4"], File true "MP4abcdefg");
               (["sd"; "b.mp4"], File true "MP4xyz");
               (["sd"; "p.jpg"], File true "JPG1");
               (["work"], Dir)].

(** A session started in [/home], nothing configured yet. *)
Definition sample_world : world := World sample_fs ["home"] ∅ [] [].

(** The same with a file already lying in the working directory. *)
Definition sample_world_busy : world :=
  set_fs (<[["work"; "old.txt"] := File true "x"]> sample_fs) sample_world.

(** The session after [config] has accepted [/work] and [/sd], with the
    answers the caller is going to type. *)
Definition sample_world_configured (answers : list answer) : world :=
  World sample_fs ["home"] {[ "working" := ["work"]; "source" := ["sd"] ]}
        [] answers.

(** A source directory with a file the process may not read. *)
Definition sample_world_locked : world :=
  set_fs (<[["sd"; "locked.mp4"] := File false "MP4abc"]> sample_fs)
    (sample_world_configured []).

(** The process standing in the source directory, as during selection. *)
Definition sample_world_in_source : world :=
  set_cwd ["sd"] (sample_world_configured []).

(** A staged working directory: photos, one video, and a video unit whose
    directory holds no file. *)
Definition sample_fs_staged : gmap (list string) node :=
  list_to_map [([], Dir); (["work"], Dir);
               (["work"; "input"], Dir); (["work"; "output"], Dir);
               (["work"; "input"; "images"], Dir);
               (["work"; "input"; "images"; "p.jpg"], File true "JPG1");
               (["work"; "input"; "video0"], Dir);
               (["work"; "input"; "video0"; "a.mp4"], File true "MP4abcdefg");
               (["work"; "input"; "video1"], Dir)].

Definition sample_world_staged (answers : list answer) : world :=
  World sample_fs_staged ["home"] {[ "working" := ["work"] ]} [] answers.



(** * Properties *)

(** ** The file-system model *)

Lemma child_of_Some p k n : child_of p k = Some n ↔ k = p ++ [n].
Proof.
  revert k. induction p as [|c p IH]; intros k; simpl.
  - destruct k as [|a [|b k]]; split; intros E; simplify_eq; done.
  - destruct k as [|c' k]; [split; intros E; simplify_eq|].
    case_decide; subst.
    + rewrite IH. split; intros E; simplify_eq; done.
    + split; intros E; simplify_eq.
Qed.

Lemma elem_of_children (fs : filesystem) p n :
  n ∈ children fs p ↔ is_Some (fs !! (p ++ [n])).
Proof.
  unfold children. rewrite list_elem_of_omap. split.
  - intros [[k nd] [Hin Hc]]. simpl in Hc.
    apply child_of_Some in Hc as ->.
    apply elem_of_map_to_list in Hin. eauto.
  - intros [nd Hnd]. exists (p ++ [n], nd). split.
    + by apply elem_of_map_to_list.
    + by apply child_of_Some.
Qed.


Lemma NoDup_children (fs : filesystem) p : NoDup (children fs p).
Proof.
  unfold children.
  assert (NoDup (map_to_list fs).*1) as Hnd by apply NoDup_fst_map_to_list.
  induction (map_to_list fs) as [|[k nd] l IH]; simpl; [constructor|].
  apply NoDup_cons in Hnd as [Hk Hl].
  destruct (child_of p k) as [n|] eqn:E; simpl; [|by apply IH].
  constructor; [|by apply IH].
  intros Hin. apply list_elem_of_omap in Hin as [[k' nd'] [Hin Hc]].
  simpl in Hc. apply child_of_Some in E, Hc. subst.
  apply Hk. apply list_elem_of_fmap. by exists (p ++ [n], nd').
Qed.

Lemma elem_of_prefixes (p q : path) : q ∈ prefixes p ↔ q `prefix_of` p.
Proof.
  revert q. induction p as [|c p IH]; intros q; simpl.
  - rewrite list_elem_of_singleton. split.
    + intros ->. done.
    + intros Hq. by apply prefix_nil_inv.
  - rewrite elem_of_cons, list_elem_of_fmap. split.
    + intros [->|[q' [-> Hq']]]; [apply prefix_nil|].
      apply prefix_cons. by apply IH.
    + intros Hq. destruct q as [|c' q]; [by left|right].
      apply prefix_cons_inv_1 in Hq as Hc. apply prefix_cons_inv_2 in Hq.
      subst. exists q. split; [done|by apply IH].
Qed.

Lemma lookup_mkdirs (fs : filesystem) (l : list path) q :
  foldl mkdir_missing fs l !! q =
  match fs !! q with
  | Some nd => Some nd
  | None => if decide (q ∈ l) then Some Dir else None
  end.
Proof.
  revert fs. induction l as [|a l IH]; intros fs; simpl.
  - by destruct (fs !! q).
  - rewrite IH. unfold mkdir_missing.
    destruct (decide (q ∈ l)) as [Hl|Hl];
      destruct (decide (q ∈ a :: l)) as [Hal|Hal];
      rewrite elem_of_cons in Hal.
    + destruct (fs !! a) eqn:Ea; [done|].
      destruct (decide (a = q)) as [->|Hne].
      * by rewrite lookup_insert_eq, Ea.
      * by rewrite lookup_insert_ne.
    + naive_solver.
    + destruct Hal as [->|?]; [|done].
      destruct (fs !! a) eqn:Ea; [by rewrite ?Ea|].
      by rewrite lookup_insert_eq.
    + destruct (fs !! a) eqn:Ea; [done|].
      rewrite lookup_insert_ne; [done|]. naive_solver.
Qed.

Lemma first_missing_spec (fs : filesystem) (l : list path) (d : path) :
  fs !! d = None →
  fs !! first_missing fs l d = None
  ∧ (first_missing fs l d = d ∨ first_missing fs l d ∈ l).
Proof.
  intros Hd. induction l as [|q l IH]; simpl; [by split; [|left]|].
  destruct (fs !! q) eqn:Eq.
  - destruct IH as [? [?|?]]; split; try done; [by left|right; by right].
  - split; [done|]. right. by left.
Qed.

Lemma os_makedirs_blocked (p : path) (b : bool) (w : world) :
  fs w !! p = None → dir_capable (fs w) p = false →
  ∃ q, os_makedirs p b w = (Raise (NotADirectoryError q), w)
       ∧ q `prefix_of` p ∧ fs w !! q = None.
Proof.
  intros E Hcap. unfold os_makedirs. rewrite E, Hcap.
  destruct (first_missing_spec (fs w) (prefixes p) p E) as [Hq Hin].
  eexists. split; [done|]. split; [|done].
  destruct Hin as [->|Hin]; [done|]. by apply elem_of_prefixes.
Qed.

(** Two levels below the photo [/sd/p.jpg] the error names the first level,
    the directory that could not be made. *)
Lemma os_makedirs_names_first_missing :
  os_makedirs ["sd"; "p.jpg"; "x"; "y"] false sample_world
  = (Raise (NotADirectoryError ["sd"; "p.jpg"; "x"]), sample_world).
Proof. vm_compute; reflexivity. Qed.

Lemma names_path_intro pre p post : names_path (pre +:+ show_path p +:+ post) p.
Proof. by exists pre, post. Qed.

Lemma string_app_nil_r (s : string) : s +:+ "" = s.
Proof.
  induction s as [|a s IH]; [done|].
  change (String a (s +:+ "") = String a s). by rewrite IH.
Qed.

Lemma names_path_end pre p : names_path (pre +:+ show_path p) p.
Proof. exists pre, "". by rewrite string_app_nil_r. Qed.

Lemma dir_capable_not_file (fs : filesystem) p :
  dir_capable fs p = true → is_file (fs !! p) = false.
Proof.
  unfold dir_capable. rewrite forallb_forall. intros Hall.
  apply negb_true_iff, Hall. apply list_elem_of_In, elem_of_prefixes. done.
Qed.

(** ** [config] *)

Lemma config_working_rejected (p : path) (w : world) msg :
  working_rejection (fs w) p = Some msg →
  config_working p w = (Ok tt, set_stdout (stdout w ++ [msg]) w).
Proof.
  unfold working_rejection, config_working, isdir_and_empty, path_exists,
    path_isdir, os_listdir, lift, bind, ret, echo.
  destruct (fs w !! p) as [[|r d]|] eqn:E; simpl; try done.
  - case_decide as Hc; [done|]. intros [= <-].
    rewrite bool_decide_false by done. by rewrite E.
  - intros [= <-]. by rewrite E.
Qed.

Lemma config_source_rejected (p : path) (w : world) msg :
  source_rejection (fs w) p = Some msg →
  config_source p w = (Ok tt, set_stdout (stdout w ++ [msg]) w).
Proof.
  unfold source_rejection, config_source, isdir_and_empty, path_exists,
    path_isdir, os_listdir, lift, bind, ret, echo.
  destruct (fs w !! p) as [[|r d]|] eqn:E; simpl.
  - case_decide as Hc; [|done]. intros [= <-].
    by rewrite bool_decide_true by done.
  - intros [= <-]. by rewrite E.
  - by intros [= <-].
Qed.

Lemma config_dest_rejected (p : path) (w : world) msg :
  dest_rejection (fs w) p = Some msg →
  config_dest p w = (Ok tt, set_stdout (stdout w ++ [msg]) w).
Proof.
  unfold dest_rejection, config_dest, path_exists, path_isdir, echo.
  destruct (fs w !! p) as [[|r d]|] eqn:E; simpl; try done.
  by intros [= <-].
Qed.

Lemma working_rejection_names (fs : filesystem) p msg :
  working_rejection fs p = Some msg → names_path msg p.
Proof.
  unfold working_rejection. destruct (fs !! p) as [[|r d]|]; [|..|done].
  - case_decide; [done|]. intros [= <-]. apply names_path_intro.
  - intros [= <-]. apply names_path_end.
Qed.

Lemma source_rejection_names (fs : filesystem) p msg :
  source_rejection fs p = Some msg → names_path msg p.
Proof.
  unfold source_rejection. destruct (fs !! p) as [[|r d]|].
  - case_decide; [|done]. intros [= <-]. apply names_path_intro.
  - intros [= <-]. apply names_path_end.
  - intros [= <-]. apply names_path_intro.
Qed.

Lemma dest_rejection_names (fs : filesystem) p msg :
  dest_rejection fs p = Some msg → names_path msg p.
Proof.
  unfold dest_rejection. destruct (fs !! p) as [[|r d]|]; try done.
  intros [= <-]. apply names_path_end.
Qed.

(** C3, as it holds: a working, source or destination directory that the
    body of [config] does not accept is reported in one echoed line that
    spells out the path; the block does nothing else (no setting and no file
    changes), and [config] goes on with the remaining options of the same
    invocation exactly as if the rejected one had not been given, instead of
    stopping.  The line says why for a working directory that is not empty
    and for a source that is missing or empty; for a path that is a regular
    file it is the unknown-issue line. *)
Theorem config_rejection_reported_and_continues
    (working source dest : option path) (p : path) (msg : string) (w : world) :
  (working_rejection (fs w) p = Some msg →
     names_path msg p ∧
     config_working p w = (Ok tt, set_stdout (stdout w ++ [msg]) w) ∧
     config_default_locations (Some p) source dest w =
     config_default_locations None source dest
       (set_stdout (stdout w ++ [msg]) w)) ∧
  (∀ w1, when_given working config_working w = (Ok tt, w1) →
     source_rejection (fs w1) p = Some msg →
     names_path msg p ∧
     config_source p w1 = (Ok tt, set_stdout (stdout w1 ++ [msg]) w1) ∧
     config_default_locations working (Some p) dest w =
     when_given dest config_dest (set_stdout (stdout w1 ++ [msg]) w1)) ∧
  (∀ w2, (when_given working config_working ;;
          when_given source config_source) w = (Ok tt, w2) →
     dest_rejection (fs w2) p = Some msg →
     names_path msg p ∧
     config_dest p w2 = (Ok tt, set_stdout (stdout w2 ++ [msg]) w2) ∧
     config_default_locations working source (Some p) w =
     (Ok tt, set_stdout (stdout w2 ++ [msg]) w2)) ∧
  (∀ f : filesystem,
     (working_rejection f p = Some msg ↔
        (f !! p = Some Dir ∧ children f p ≠ [] ∧ msg = msg_working_not_empty p)
        ∨ (is_file (f !! p) = true ∧ msg = msg_working_unknown p)) ∧
     (source_rejection f p = Some msg ↔
        (f !! p = None ∧ msg = msg_source_missing p)
        ∨ (f !! p = Some Dir ∧ children f p = [] ∧ msg = msg_source_empty p)
        ∨ (is_file (f !! p) = true ∧ msg = msg_source_unknown p)) ∧
     (dest_rejection f p = Some msg ↔
        is_file (f !! p) = true ∧ msg = msg_dest_unknown p)).
Proof.
  split; [|split; [|split]].
  - intros Hr. split; [by eapply working_rejection_names|].
    split; [by apply config_working_rejected|].
    unfold config_default_locations, bind; simpl.
    by rewrite (config_working_rejected _ _ _ Hr).
  - intros w1 Hw Hr. split; [by eapply source_rejection_names|].
    split; [by apply config_source_rejected|].
    unfold config_default_locations, bind. rewrite Hw. simpl.
    by rewrite (config_source_rejected _ _ _ Hr).
  - intros w2 Hw Hr. split; [by eapply dest_rejection_names|].
    split; [by apply config_dest_rejected|].
    unfold config_default_locations. unfold bind in *.
    destruct (when_given working config_working w) as [[[]|e] w1]; [|done].
    rewrite Hw. simpl. by rewrite (config_dest_rejected _ _ _ Hr).
  - intros f. unfold working_rejection, source_rejection, dest_rejection.
    destruct (f !! p) as [[|b d]|]; simpl.
    + case_decide as Hc; (split; [|split]); split; try done.
      * by intros [(_ & ? & _)|[? _]].
      * intros [= <-]. right. by left.
      * intros [[? _]|[(_ & _ & ->)|[? _]]]; done.
      * by intros [? _].
      * intros [= <-]. by left.
      * intros [(_ & _ & ->)|[? _]]; done.
      * intros [[? _]|[(_ & ? & _)|[? _]]]; done.
      * by intros [? _].
    + split; [|split]; split.
      * intros [= <-]. by right.
      * intros [(? & _)|[_ ->]]; done.
      * intros [= <-]. right. by right.
      * intros [[? _]|[(? & _)|[_ ->]]]; done.
      * by intros [= <-].
      * by intros [_ ->].
    + split; [|split]; split; try done.
      * by intros [(? & _)|[? _]].
      * intros [= <-]. by left.
      * intros [[_ ->]|[(? & _)|[? _]]]; done.
      * by intros [? _].
Qed.

(** C3, witness: a non-empty working directory given together with the
    source. *)
Lemma config_rejection_reported_and_continues_witness :
  working_rejection (fs sample_world_busy) ["work"]
    = Some (msg_working_not_empty ["work"]) ∧
  config_default_locations (Some ["work"]) (Some ["sd"]) None sample_world_busy
  = config_default_locations None (Some ["sd"]) None
      (set_stdout (stdout sample_world_busy ++ [msg_working_not_empty ["work"]])
         sample_world_busy).
Proof.
  split; [vm_compute; reflexivity|].
  apply (proj1 (config_rejection_reported_and_continues None (Some ["sd"]) None
                  ["work"] (msg_working_not_empty ["work"]) sample_world_busy)).
  vm_compute; reflexivity.
Defined.

(** C3, as stated, fails: with a non-empty working directory and a valid
    source in one invocation, [config] reports the working directory and
    then still sets the source; it returns normally. *)
Lemma config_does_not_abort_on_rejection :
  let r := config_default_locations (Some ["work"]) (Some ["sd"]) None
             sample_world_busy in
  r.1 = Ok tt ∧
  stdout r.2 = [msg_working_not_empty ["work"];
                "Setting source directory to: /sd"] ∧
  ctx r.2 !! "working" = None ∧
  ctx r.2 !! "source" = Some ["sd"].
Proof. vm_compute. done. Qed.

(** Going on after a rejection does not mean that the invocation returns:
    after the same working directory is reported, a destination below the
    photo [/sd/p.jpg] makes the creation raise. *)
Lemma config_rejection_then_raise :
  let r := config_default_locations (Some ["work"]) None
             (Some ["sd"; "p.jpg"; "x"]) sample_world_busy in
  r.1 = Raise (NotADirectoryError ["sd"; "p.jpg"; "x"]) ∧
  stdout r.2 = [msg_working_not_empty ["work"];
                "Creating destination directory: /sd/p.jpg/x"] ∧
  ctx r.2 = ctx sample_world_busy.
Proof. cbn zeta. repeat split; vm_compute; reflexivity. Qed.

Lemma config_working_accepted (p : path) (w : world) :
  fs w !! p = Some Dir → children (fs w) p = [] →
  config_working p w =
  (Ok tt, set_ctx (<["working" := p]> (ctx w))
            (set_stdout (stdout w ++ ["Setting working directory to: "
                                      +:+ show_path p]) w)).
Proof.
  intros E Hc.
  unfold config_working, isdir_and_empty, path_exists, path_isdir,
    os_listdir, lift, bind, ret, echo, ctx_store.
  rewrite E. simpl. by rewrite bool_decide_true by done.
Qed.

Lemma config_working_created (p : path) (w : world) :
  fs w !! p = None → dir_capable (fs w) p = true →
  config_working p w =
  (Ok tt, set_ctx (<["working" := p]> (ctx w))
            (set_fs (foldl mkdir_missing (fs w) (prefixes p))
               (set_stdout (stdout w ++ ["Creating working directory: "
                                         +:+ show_path p]) w))).
Proof.
  intros E Hcap.
  unfold config_working, path_exists, os_makedirs, bind, echo, ctx_store.
  rewrite E. simpl. by rewrite E, Hcap.
Qed.

(** C5, as it holds: setting the working directory splits on what the path
    is.  A missing path none of whose components is a regular file is
    created, only directories on the way to it being added, and accepted; a
    missing path below a regular file makes the creation raise a
    not-a-directory error with nothing created or stored; an existing empty
    directory is accepted; an existing non-empty directory is rejected with
    the not-empty line, and a regular file with the unknown-issue line, the
    session settings and the file system staying exactly as they were. *)
Theorem config_working_cases (p : path) (w : world) :
  let r := config_working p w in
  match fs w !! p with
  | None =>
      if dir_capable (fs w) p
      then r.1 = Ok tt ∧ fs r.2 !! p = Some Dir ∧
           (∀ q nd, fs w !! q = Some nd → fs r.2 !! q = Some nd) ∧
           (∀ q nd, fs r.2 !! q = Some nd →
                    fs w !! q = Some nd ∨ (nd = Dir ∧ q `prefix_of` p)) ∧
           ctx r.2 = <["working" := p]> (ctx w)
      else (∃ q, r.1 = Raise (NotADirectoryError q) ∧ q `prefix_of` p
                 ∧ fs w !! q = None) ∧
           fs r.2 = fs w ∧ ctx r.2 = ctx w
  | Some Dir =>
      r.1 = Ok tt ∧ fs r.2 = fs w ∧
      if decide (children (fs w) p = [])
      then ctx r.2 = <["working" := p]> (ctx w)
      else ctx r.2 = ctx w ∧
           stdout r.2 = stdout w ++ [msg_working_not_empty p]
  | Some (File _ _) =>
      r.1 = Ok tt ∧ fs r.2 = fs w ∧ ctx r.2 = ctx w ∧
      stdout r.2 = stdout w ++ [msg_working_unknown p]
  end.
Proof.
  destruct (fs w !! p) as [[|b d]|] eqn:E; cbn zeta.
  - case_decide as Hc.
    + by rewrite (config_working_accepted _ _ E Hc).
    + assert (working_rejection (fs w) p = Some (msg_working_not_empty p)) as Hr.
      { unfold working_rejection. rewrite E. by rewrite decide_False. }
      by rewrite (config_working_rejected _ _ _ Hr).
  - assert (working_rejection (fs w) p = Some (msg_working_unknown p)) as Hr.
    { unfold working_rejection. by rewrite E. }
    by rewrite (config_working_rejected _ _ _ Hr).
  - destruct (dir_capable (fs w) p) eqn:Hcap.
    + rewrite (config_working_created _ _ E Hcap). simpl.
      split; [done|]. split; [|split; [|split; [|done]]].
      * rewrite lookup_mkdirs, E. rewrite decide_True; [done|].
        by apply elem_of_prefixes.
      * intros q nd Hq. by rewrite lookup_mkdirs, Hq.
      * intros q nd. rewrite lookup_mkdirs. destruct (fs w !! q); [by left|].
        case_decide as Hp; [|done]. intros [= <-]. right. split; [done|].
        by apply elem_of_prefixes.
    + unfold config_working, path_exists. rewrite E. simpl.
      destruct (os_makedirs_blocked p false
                  (set_stdout (stdout w ++ ["Creating working directory: "
                                            +:+ show_path p]) w) E Hcap)
        as (q & Hmk & Hq & Hn).
      unfold bind, echo. cbv beta iota. rewrite Hmk. simpl in *.
      split; [by exists q|done].
Qed.

(** C5, as stated, fails: a path that does not exist is not always created
    and accepted.  Below the photo [/sd/p.jpg] no directory can be made:
    the creation raises, nothing is created and no working directory is
    stored. *)
Lemma config_working_below_file_raises :
  let p := ["sd"; "p.jpg"; "x"] in
  let r := config_working p sample_world in
  fs sample_world !! p = None ∧
  r.1 = Raise (NotADirectoryError p) ∧
  fs r.2 = fs sample_world ∧
  ctx r.2 !! "working" = None.
Proof. cbn zeta. repeat split; vm_compute; reflexivity. Qed.

(** ** The classifier *)

Section Classifier.
Context `{Libraries}.

Lemma istype_eq (source : path) (f t : string) (w : world) :
  istype source f t w =
  (match fs w !! (source ++ [f]) with
   | Some (File true d) =>
       Ok (match magic d with
           | Some mime => String.prefix t mime
           | None => false
           end)
   | Some (File false _) => Raise (PermissionError (source ++ [f]))
   | Some Dir => Raise (IsADirectoryError (source ++ [f]))
   | None => Raise (FileNotFoundError (source ++ [f]))
   end, w).
Proof.
  unfold istype, filetype_guess, lift, bind, ret.
  by destruct (fs w !! (source ++ [f])) as [[|[] d]|].
Qed.

Lemma istype_world (source : path) (f t : string) (w : world) :
  (istype source f t w).2 = w.
Proof. by rewrite istype_eq. Qed.

(** C9, as it holds: a candidate that cannot be read makes the classifier
    raise, whatever type is asked for, because the error of the content
    probe is not handled; a readable candidate whose signature is unknown,
    or is neither an image nor a video type, is classified as neither
    without raising. *)
Theorem istype_unreadable_raises (source : path) (f t : string) (w : world) :
  (∀ d, fs w !! (source ++ [f]) = Some (File false d) →
        istype source f t w = (Raise (PermissionError (source ++ [f])), w)) ∧
  (∀ d, fs w !! (source ++ [f]) = Some (File true d) →
        (∀ mime, magic d = Some mime →
                 String.prefix "image" mime = false ∧
                 String.prefix "video" mime = false) →
        istype source f "image" w = (Ok false, w) ∧
        istype source f "video" w = (Ok false, w)).
Proof.
  split.
  - intros d E. by rewrite istype_eq, E.
  - intros d E Hm. rewrite !istype_eq, E.
    destruct (magic d) as [mime|]; [|done].
    by destruct (Hm mime eq_refl) as [-> ->].
Qed.

End Classifier.

(** C9, witness: the unreadable file of the sample source directory. *)
Lemma istype_unreadable_raises_witness :
  fs sample_world_locked !! (["sd"] ++ ["locked.mp4"])
    = Some (File false "MP4abc") ∧
  @istype sample_libs ["sd"] "locked.mp4" "video" sample_world_locked
  = (Raise (PermissionError (["sd"] ++ ["locked.mp4"])), sample_world_locked).
Proof.
  split; [vm_compute; reflexivity|].
  apply (proj1 (@istype_unreadable_raises sample_libs ["sd"] "locked.mp4"
                  "video" sample_world_locked) "MP4abc").
  vm_compute; reflexivity.
Defined.

(** C9, as stated, fails: on a file that cannot be read the classifier does
    not answer "neither" (false for both types), it raises. *)
Lemma istype_unreadable_not_neither :
  (@istype sample_libs ["sd"] "locked.mp4" "image" sample_world_locked).1
    = Raise (PermissionError ["sd"; "locked.mp4"]) ∧
  (@istype sample_libs ["sd"] "locked.mp4" "video" sample_world_locked).1
    = Raise (PermissionError ["sd"; "locked.mp4"]) ∧
  (@setup sample_libs false sample_world_locked).1
    = Raise (PermissionError ["sd"; "locked.mp4"]).
Proof. vm_compute. done. Qed.

(** ** [extract]: the precondition checks *)

Section ExtractChecks.
Context `{Libraries}.

Lemma extract_working_unset (w : world) :
  ctx w !! "working" = None →
  extract w = (Raise (UsageError msg_extract_no_working), w).
Proof. intros E. unfold extract, ctx_get, bind, raise. by rewrite E. Qed.

Lemma extract_setup_skipped (w : world) (working : path) :
  ctx w !! "working" = Some working →
  fs w !! working = Some Dir →
  fs w !! (working ++ ["input"]) = None →
  fs w !! (working ++ ["output"]) = None →
  extract w = (Raise (UsageError msg_not_configured), w).
Proof.
  intros Ec Ew Ei Eo.
  unfold extract, ctx_get, bind, raise, os_listdir, lift. rewrite Ec, Ew.
  rewrite bool_decide_false, bool_decide_false; [done|..];
    rewrite elem_of_children; by intros [? ?]; simplify_eq.
Qed.

(** When [output] is there and [input] is not, the test
    [not inp and not out] is false and the listing of [input] raises. *)
Lemma extract_input_missing (w : world) (working : path) :
  ctx w !! "working" = Some working →
  fs w !! working = Some Dir →
  fs w !! (working ++ ["input"]) = None →
  is_Some (fs w !! (working ++ ["output"])) →
  extract w = (Raise (FileNotFoundError (working ++ ["input"])), w).
Proof.
  intros Ec Ew Ei Eo.
  unfold extract, ctx_get, bind, raise, os_listdir, lift. rewrite Ec, Ew.
  rewrite bool_decide_false, bool_decide_true; simpl.
  - by rewrite Ei.
  - by rewrite elem_of_children.
  - rewrite elem_of_children. by intros [? ?]; simplify_eq.
Qed.

End ExtractChecks.

(** C1, on the code: [setup] run with nothing selected creates [output]
    but no [input]; [extract] then has its working directory set and
    [input] absent, and what it raises is the [FileNotFoundError] of
    [os.listdir], not the usage error that names the [setup] step. *)
Lemma extract_input_missing_raises_oserror :
  let w := (@setup sample_libs false
              (sample_world_configured [AnsBool false; AnsInt 0])).2 in
  ctx w !! "working" = Some ["work"] ∧
  fs w !! ["work"; "input"] = None ∧
  fs w !! ["work"; "output"] = Some Dir ∧
  @extract sample_libs w = (Raise (FileNotFoundError ["work"; "input"]), w).
Proof. vm_compute. done. Qed.

(** ** [setup]: the video-selection loop *)

Section VideoLoop.
Context `{Libraries}.

Lemma video_loop_done source ext_vid i sel inp w :
  ¬ (i < ext_vid)%nat →
  video_loop source ext_vid i sel inp w = (Ok sel, set_stdin inp w).
Proof. intros Hi. destruct inp; simpl; by rewrite decide_False. Qed.

Lemma video_loop_eof source ext_vid i sel w :
  (i < ext_vid)%nat →
  video_loop source ext_vid i sel [] w = (Raise Abort, set_stdin [] w).
Proof. intros Hi. simpl. by rewrite decide_True. Qed.

Lemma video_loop_reprompt source ext_vid i sel a inp w :
  (i < ext_vid)%nat → click_Path true true false w a = None →
  video_loop source ext_vid i sel (a :: inp) w
  = video_loop source ext_vid i sel inp w.
Proof. intros Hi E. simpl. by rewrite decide_True, E. Qed.

Lemma video_loop_accept source ext_vid i sel a inp w vid :
  (i < ext_vid)%nat → click_Path true true false w a = Some vid →
  (istype source vid "video" w).1 = Ok true →
  video_loop source ext_vid i sel (a :: inp) w
  = video_loop source ext_vid (i + 1) (sel ++ [vid]) inp (set_stdin inp w).
Proof.
  intros Hi E Hv. simpl. rewrite decide_True, E by done.
  rewrite istype_eq in Hv |- *. simpl in *. by rewrite Hv.
Qed.

Lemma video_loop_reject source ext_vid i sel a inp w vid :
  (i < ext_vid)%nat → click_Path true true false w a = Some vid →
  (istype source vid "video" w).1 = Ok false →
  video_loop source ext_vid i sel (a :: inp) w
  = video_loop source ext_vid i sel inp
      (set_stdout (stdout w ++ [msg_not_a_video vid]) (set_stdin inp w)).
Proof.
  intros Hi E Hv. simpl. rewrite decide_True, E by done.
  rewrite istype_eq in Hv |- *. simpl in *. by rewrite Hv.
Qed.

Lemma click_Path_file_readable w a vid :
  click_Path true true false w a = Some vid →
  ∃ d, fs w !! (cwd w ++ [vid]) = Some (File true d).
Proof.
  unfold click_Path. destruct a as [| |s]; try done.
  destruct (fs w !! (cwd w ++ [s])) as [[|[] d]|] eqn:E; try done.
  intros [= <-]. eauto.
Qed.

Lemma candidate_classifies w a vid :
  click_Path true true false w a = Some vid →
  ∃ b, (istype (cwd w) vid "video" w).1 = Ok b.
Proof.
  intros [d E]%click_Path_file_readable. rewrite istype_eq, E. simpl. eauto.
Qed.

Lemma classified_video_ext source w1 w2 a :
  fs w1 = fs w2 → cwd w1 = cwd w2 →
  classified_video source w1 a = classified_video source w2 a.
Proof.
  intros Ef Ec. unfold classified_video, click_Path.
  destruct a as [| |s]; try done. rewrite Ef, Ec.
  destruct (fs w2 !! (cwd w2 ++ [s])) as [[|[] d]|]; try done. simpl.
  by rewrite !istype_eq, Ef.
Qed.

Lemma omap_classified_video_ext source w1 w2 (inp : list answer) :
  fs w1 = fs w2 → cwd w1 = cwd w2 →
  omap (classified_video source w1) inp
  = omap (classified_video source w2) inp.
Proof.
  intros Ef Ec. induction inp as [|a inp IH]; [done|]. cbn [omap list_omap].
  by rewrite (classified_video_ext source w1 w2 a Ef Ec), IH.
Qed.

Lemma omap_cons {A B} (f : A → option B) (a : A) (l : list A) :
  omap f (a :: l) = match f a with
                    | Some b => b :: omap f l
                    | None => omap f l
                    end.
Proof. done. Qed.

Lemma video_loop_spec source ext_vid inp :
  ∀ i sel w, cwd w = source → (i ≤ ext_vid)%nat →
  let valid := omap (classified_video source w) inp in
  let r := video_loop source ext_vid i sel inp w in
  r.1 = (if decide (ext_vid - i ≤ length valid)%nat
         then Ok (sel ++ take (ext_vid - i) valid) else Raise Abort)
  ∧ fs r.2 = fs w ∧ cwd r.2 = cwd w ∧ ctx r.2 = ctx w.
Proof.
  induction inp as [|a inp IH]; intros i sel w Hcwd Hi;
    [|rewrite omap_cons].
  - change (omap (classified_video source w) []) with (@nil string).
    destruct (decide (i < ext_vid)%nat) as [Hlt|Hge].
    + rewrite video_loop_eof by done. simpl.
      rewrite decide_False by lia. done.
    + rewrite video_loop_done by done. simpl.
      rewrite decide_True by lia.
      replace (ext_vid - i) with 0 by lia. by rewrite app_nil_r.
  - destruct (decide (i < ext_vid)%nat) as [Hlt|Hge].
    2:{ rewrite video_loop_done by done. cbn zeta. cbn [fst snd].
        rewrite decide_True by lia.
        replace (ext_vid - i) with 0 by lia. by rewrite take_0, app_nil_r. }
    unfold classified_video at 1.
    destruct (click_Path true true false w a) as [vid|] eqn:Ea.
    2:{ rewrite video_loop_reprompt by done. by apply IH. }
    destruct (candidate_classifies _ _ _ Ea) as [b Hb]. rewrite Hcwd in Hb.
    rewrite Hb. destruct b.
    + rewrite (video_loop_accept _ _ _ _ _ _ _ _ Hlt Ea Hb).
      specialize (IH (i + 1) (sel ++ [vid]) (set_stdin inp w) Hcwd
                    ltac:(lia)).
      cbn zeta in IH. destruct IH as (IH1 & IH2 & IH3 & IH4).
      rewrite IH1, IH2, IH3, IH4.
      rewrite (omap_classified_video_ext source (set_stdin inp w) w)
        by done.
      cbn [length]. split; [|done]. clear IH1 IH2 IH3 IH4.
      repeat case_decide; try lia; [|done].
      replace (ext_vid - i) with (S (ext_vid - (i + 1))) by lia.
      by rewrite <- app_assoc.
    + rewrite (video_loop_reject _ _ _ _ _ _ _ _ Hlt Ea Hb).
      set (w' := set_stdout _ _).
      specialize (IH i sel w' Hcwd Hi).
      cbn zeta in IH. destruct IH as (IH1 & IH2 & IH3 & IH4).
      rewrite IH1, IH2, IH3, IH4.
      rewrite (omap_classified_video_ext source w' w) by done.
      done.
Qed.

(** C6: in the source directory the selection loop hands back the first
    [ext_vid] candidates that classify as videos, in the order given; a
    candidate that does not classify as a video only adds the not-a-video
    line and the loop asks again with the same count and the same
    selection; the loop ends normally only with exactly [ext_vid] videos
    (with fewer in the answers it keeps asking until the input ends); the
    file system is not touched. *)
Theorem video_loop_collects_exactly
    (source : path) (ext_vid : nat) (inp : list answer) (w : world) :
  cwd w = source →
  let valid := omap (classified_video source w) inp in
  let r := video_loop source ext_vid 0 [] inp w in
  ((ext_vid ≤ length valid)%nat → r.1 = Ok (take ext_vid valid)) ∧
  ((length valid < ext_vid)%nat → r.1 = Raise Abort) ∧
  (∀ sel_videos, r.1 = Ok sel_videos →
     length sel_videos = ext_vid ∧
     Forall (λ vid, (istype source vid "video" w).1 = Ok true) sel_videos) ∧
  (∀ a inp' vid i sel, (i < ext_vid)%nat →
     click_Path true true false w a = Some vid →
     (istype source vid "video" w).1 = Ok false →
     video_loop source ext_vid i sel (a :: inp') w
     = video_loop source ext_vid i sel inp'
         (set_stdout (stdout w ++ [msg_not_a_video vid]) (set_stdin inp' w))) ∧
  fs r.2 = fs w.
Proof.
  intros Hcwd valid r.
  destruct (video_loop_spec source ext_vid inp 0 [] w Hcwd ltac:(lia))
    as (H1 & H2 & _).
  fold valid r in H1, H2. rewrite Nat.sub_0_r in H1. simpl in H1.
  split; [|split; [|split; [|split]]]; try done.
  - intros Hle. by rewrite H1, decide_True.
  - intros Hlt. by rewrite H1, decide_False by lia.
  - intros sel Hsel. rewrite H1 in Hsel. case_decide as Hle; [|done].
    injection Hsel as <-. split.
    + rewrite length_take. lia.
    + apply Forall_forall. intros vid Hin.
      apply elem_of_take in Hin as (j & Hj & _).
      apply list_elem_of_lookup_2 in Hj.
      apply list_elem_of_omap in Hj as (a & _ & Ha).
      unfold classified_video in Ha.
      destruct (click_Path true true false w a) as [v|]; [|done].
      destruct ((istype source v "video" w).1) as [[]|] eqn:Ev; try done.
      by injection Ha as <-.
  - intros a inp' vid i sel Hi Ea Hv. by apply video_loop_reject.
Qed.

End VideoLoop.

(** C6, witness: asked for one video, the caller first names the photo and
    then a video. *)
Lemma video_loop_collects_exactly_witness :
  cwd sample_world_in_source = ["sd"] ∧
  (@video_loop sample_libs ["sd"] 1 0 []
     [AnsText "p.jpg"; AnsText "a.mp4"] sample_world_in_source).1
  = Ok ["a.mp4"].
Proof.
  split; [reflexivity|].
  pose proof (proj1 (@video_loop_collects_exactly sample_libs ["sd"] 1
                       [AnsText "p.jpg"; AnsText "a.mp4"]
                       sample_world_in_source eq_refl)) as Hw.
  vm_compute in Hw |- *. apply Hw. lia.
Defined.

(** ** [setup]: the current directory *)

Lemma bind_Ok {A B} (m : M A) (k : A → M B) w b w' :
  (x <- m ;; k x) w = (Ok b, w') →
  ∃ a w1, m w = (Ok a, w1) ∧ k a w1 = (Ok b, w').
Proof.
  unfold bind. destruct (m w) as [[a|e] w1]; [|done]. eauto.
Qed.

Lemma keeps_cwd_ret {A} (a : A) : keeps_cwd (ret a).
Proof. done. Qed.

Lemma keeps_cwd_raise {A} e : keeps_cwd (@raise A e).
Proof. done. Qed.

Lemma keeps_cwd_bind {A B} (m : M A) (k : A → M B) :
  keeps_cwd m → (∀ a, keeps_cwd (k a)) → keeps_cwd (x <- m ;; k x).
Proof.
  intros Hm Hk w. unfold bind. specialize (Hm w).
  destruct (m w) as [[a|e] w1]; simpl in *; [|done].
  by rewrite Hk.
Qed.

Lemma keeps_cwd_lift {A} (f : world → outcome A) : keeps_cwd (lift f).
Proof. done. Qed.

Lemma keeps_cwd_echo s : keeps_cwd (echo s).
Proof. done. Qed.

Lemma keeps_cwd_for_each {A} (body : A → M unit) l :
  (∀ a, keeps_cwd (body a)) → keeps_cwd (for_each body l).
Proof.
  intros Hb. induction l as [|x l IH]; simpl.
  - apply keeps_cwd_ret.
  - apply keeps_cwd_bind; auto.
Qed.

Lemma keeps_cwd_filter_m {A} (p : A → M bool) l :
  (∀ a, keeps_cwd (p a)) → keeps_cwd (filter_m p l).
Proof.
  intros Hp. induction l as [|x l IH]; simpl.
  - apply keeps_cwd_ret.
  - apply keeps_cwd_bind; [auto|]. intros b.
    apply keeps_cwd_bind; [auto|]. intros r. apply keeps_cwd_ret.
Qed.

Lemma keeps_cwd_click_prompt {A} (conv : world → answer → option A) :
  keeps_cwd (click_prompt conv).
Proof.
  intros w. unfold click_prompt.
  by destruct (prompt_from (conv w) (stdin w)).
Qed.

Lemma keeps_cwd_os_listdir p : keeps_cwd (os_listdir p).
Proof. apply keeps_cwd_lift. Qed.

Lemma keeps_cwd_os_makedirs p b : keeps_cwd (os_makedirs p b).
Proof.
  intros w. unfold os_makedirs.
  destruct (fs w !! p) as [[|r d]|]; try done.
  - by destruct b.
  - by destruct (dir_capable (fs w) p).
Qed.

Lemma keeps_cwd_shutil_copy src dst : keeps_cwd (shutil_copy src dst).
Proof.
  intros w. unfold shutil_copy. case_decide; [done|].
  destruct (fs w !! src) as [[|[] d]|]; try done.
  repeat (case_match; try done).
Qed.

Lemma keeps_cwd_shutil_move src dst : keeps_cwd (shutil_move src dst).
Proof.
  intros w. unfold shutil_move. case_match; [done|].
  destruct (fs w !! src) as [[|r d]|]; try done.
  case_decide; [done|]. repeat (case_match; try done).
Qed.

Create HintDb keeps discriminated.
#[local] Hint Resolve keeps_cwd_ret keeps_cwd_raise keeps_cwd_lift
  keeps_cwd_echo keeps_cwd_click_prompt keeps_cwd_os_listdir
  keeps_cwd_os_makedirs keeps_cwd_shutil_copy keeps_cwd_shutil_move : keeps.

Ltac keeps :=
  repeat first
    [ solve [auto with keeps]
    | progress intros
    | apply keeps_cwd_bind
    | apply keeps_cwd_for_each
    | apply keeps_cwd_filter_m
    | match goal with
      | |- keeps_cwd (if ?b then _ else _) => destruct b
      | |- keeps_cwd (match ?x with _ => _ end) => destruct x
      end ].

Lemma reads_only_ret {A} (a : A) : reads_only (ret a).
Proof. done. Qed.

Lemma reads_only_lift {A} (f : world → outcome A) : reads_only (lift f).
Proof. done. Qed.

Lemma reads_only_echo s : reads_only (echo s).
Proof. done. Qed.

Lemma reads_only_bind {A B} (m : M A) (k : A → M B) :
  reads_only m → (∀ a, reads_only (k a)) → reads_only (x <- m ;; k x).
Proof.
  intros Hm Hk w. unfold bind. specialize (Hm w).
  destruct (m w) as [[a|e] w1]; simpl in *; [|done].
  destruct (Hk a w1) as (-> & -> & ->). done.
Qed.

Lemma reads_only_for_each {A} (body : A → M unit) l :
  (∀ a, reads_only (body a)) → reads_only (for_each body l).
Proof.
  intros Hb. induction l as [|x l IH]; simpl.
  - apply reads_only_ret.
  - apply reads_only_bind; auto.
Qed.

Lemma reads_only_filter_m {A} (p : A → M bool) l :
  (∀ a, reads_only (p a)) → reads_only (filter_m p l).
Proof.
  intros Hp. induction l as [|x l IH]; simpl.
  - apply reads_only_ret.
  - apply reads_only_bind; [auto|]. intros b.
    apply reads_only_bind; [auto|]. intros r. apply reads_only_ret.
Qed.

Lemma reads_only_click_prompt {A} (conv : world → answer → option A) :
  reads_only (click_prompt conv).
Proof.
  intros w. unfold click_prompt.
  by destruct (prompt_from (conv w) (stdin w)).
Qed.

Lemma reads_only_os_listdir p : reads_only (os_listdir p).
Proof. apply reads_only_lift. Qed.

Section Select.
Context `{Libraries}.

Lemma reads_only_istype source f t : reads_only (istype source f t).
Proof. intros w. by rewrite istype_world. Qed.

Lemma reads_only_glob expr root : reads_only (glob_glob expr root).
Proof. done. Qed.

Lemma video_loop_reads_only source ext_vid inp :
  ∀ i sel w, let r := video_loop source ext_vid i sel inp w in
             fs r.2 = fs w ∧ cwd r.2 = cwd w ∧ ctx r.2 = ctx w.
Proof.
  induction inp as [|a inp IH]; intros i sel w; simpl.
  - by case_decide.
  - case_decide; [|done].
    destruct (click_Path true true false w a) as [vid|]; [|apply IH].
    pose proof (istype_world source vid "video" (set_stdin inp w)) as Hw.
    destruct (istype source vid "video" (set_stdin inp w)) as [[[]|e] w'];
      simpl in Hw; subst w'; [| |done].
    + destruct (IH (i + 1) (sel ++ [vid]) (set_stdin inp w)) as (-> & -> & ->).
      done.
    + set (w' := set_stdout _ _).
      destruct (IH i sel w') as (-> & -> & ->). done.
Qed.

Lemma reads_only_select source : reads_only (select source).
Proof.
  unfold select, select_images, select_videos, click_echo_via_pager.
  repeat first
    [ apply reads_only_ret | apply reads_only_echo
    | apply reads_only_click_prompt | apply reads_only_os_listdir
    | apply reads_only_istype | apply reads_only_glob
    | apply reads_only_bind | apply reads_only_for_each
    | apply reads_only_filter_m
    | progress intros
    | match goal with
      | |- reads_only (if ?b then _ else _) => destruct b
      end ].
  intros w. apply video_loop_reads_only.
Qed.

End Select.

Section SetupCwd.
Context `{Libraries}.

Lemma keeps_cwd_istype source f t : keeps_cwd (istype source f t).
Proof. intros w. by rewrite istype_world. Qed.

Lemma keeps_cwd_glob expr root : keeps_cwd (glob_glob expr root).
Proof. done. Qed.

#[local] Hint Resolve keeps_cwd_istype keeps_cwd_glob : keeps.

Lemma video_loop_cwd source ext_vid inp :
  ∀ i sel w, cwd (video_loop source ext_vid i sel inp w).2 = cwd w.
Proof.
  induction inp as [|a inp IH]; intros i sel w; simpl.
  - by case_decide.
  - case_decide; [|done].
    destruct (click_Path true true false w a) as [vid|]; [|apply IH].
    pose proof (istype_world source vid "video" (set_stdin inp w)) as Hw.
    destruct (istype source vid "video" (set_stdin inp w)) as [[[]|e] w'];
      simpl in Hw; subst w'; [by rewrite IH..|done].
Qed.

Lemma keeps_cwd_select source : keeps_cwd (select source).
Proof.
  unfold select, select_images, select_videos, click_echo_via_pager. keeps.
  intros w. apply video_loop_cwd.
Qed.

Lemma keeps_cwd_materialize working sel_images sel_videos :
  keeps_cwd (materialize working sel_images sel_videos).
Proof. unfold materialize. keeps. Qed.

Lemma keeps_cwd_transfer move source working sel_images sel_videos :
  keeps_cwd (transfer move source working sel_images sel_videos).
Proof. unfold transfer. destruct move; keeps. Qed.

Lemma os_chdir_cwd p w :
  cwd (os_chdir p w).2 = (if (os_chdir p w).1 is Ok _ then p else cwd w).
Proof. unfold os_chdir. by destruct (fs w !! p) as [[|r d]|]. Qed.

Lemma setup_eq (move : bool) (w : world) :
  setup move w =
  match ctx w !! "source", ctx w !! "working" with
  | None, _ => (Raise (UsageError msg_no_source), w)
  | Some _, None => (Raise (UsageError msg_no_working), w)
  | Some source, Some working => stage move source working w
  end.
Proof.
  unfold setup, ctx_get, bind, raise.
  by destruct (ctx w !! "source"), (ctx w !! "working").
Qed.

(** C2, as it holds: [setup] is back in the directory it was started from
    when it returns normally, and has not left it when it stops on a missing
    source or working setting, or when the source directory cannot be
    entered.  Once it has entered the source directory there is no
    restoration on a failure path: when it raises during the selection, or
    because the working directory cannot be entered, the process is left in
    the source directory; when it raises later (making the directories, a
    transfer, the change back) the process is left in the working
    directory. *)
Theorem setup_cwd_restored_on_success (move : bool) (w : world) :
  let r := setup move w in
  (r.1 = Ok tt → cwd r.2 = cwd w) ∧
  (ctx w !! "source" = None ∨ ctx w !! "working" = None →
     ∃ msg, r = (Raise (UsageError msg), w)) ∧
  (∀ e source working,
     ctx w !! "source" = Some source → ctx w !! "working" = Some working →
     r.1 = Raise e →
     if is_dir (fs w !! source) then
       match (select source (set_cwd source w)).1 with
       | Raise _ => cwd r.2 = source
       | Ok _ => cwd r.2 = if is_dir (fs w !! working) then working else source
       end
     else cwd r.2 = cwd w).
Proof.
  cbn zeta. rewrite setup_eq.
  destruct (ctx w !! "source") as [source|] eqn:Es;
    [destruct (ctx w !! "working") as [working|] eqn:Ew|].
  2,3: (split; [done|]; split; [eauto|]; by intros e ? ? ? ?).
  split; [|split; [by intros [|]|]].
  - intros Hok.
    destruct (stage move source working w) as [[[]|e] w'] eqn:E; [|done].
    unfold stage in E.
    apply bind_Ok in E as (curdir & w1 & E1 & E).
    injection E1 as <- <-.
    apply bind_Ok in E as (? & w2 & _ & E).
    apply bind_Ok in E as (sel & w3 & _ & E).
    apply bind_Ok in E as (? & w4 & _ & E).
    apply bind_Ok in E as (? & w5 & _ & E).
    apply bind_Ok in E as (? & w6 & _ & E).
    pose proof (os_chdir_cwd (cwd w) w6) as Hc. by rewrite E in Hc.
  - intros e ? ? [= <-] [= <-]. unfold stage, bind, os_getcwd.
    destruct (fs w !! source) as [[|b d]|] eqn:Esrc; simpl;
      [|unfold os_chdir; by rewrite Esrc..].
    assert (os_chdir source w = (Ok tt, set_cwd source w)) as ->
      by (unfold os_chdir; by rewrite Esrc).
    pose proof (keeps_cwd_select source (set_cwd source w)) as C2.
    destruct (reads_only_select source (set_cwd source w)) as [Hfs _].
    destruct (select source (set_cwd source w)) as [[sel|e2] w2];
      simpl in C2, Hfs |- *; [|done].
    destruct (fs w !! working) as [[|b d]|] eqn:Ewk; simpl;
      [|unfold os_chdir; rewrite Hfs, Ewk; done..].
    assert (os_chdir working w2 = (Ok tt, set_cwd working w2)) as ->
      by (unfold os_chdir; by rewrite Hfs, Ewk).
    pose proof (keeps_cwd_materialize working sel.1 sel.2
                  (set_cwd working w2)) as C4.
    destruct (materialize working sel.1 sel.2 (set_cwd working w2))
      as [[[]|e4] w4]; simpl in C4 |- *; [|done].
    pose proof (keeps_cwd_transfer move source working sel.1 sel.2 w4) as C5.
    destruct (transfer move source working sel.1 sel.2 w4) as [[[]|e5] w5];
      simpl in C5 |- *; [|intros _; congruence].
    pose proof (os_chdir_cwd (cwd w) w5) as C6.
    destruct (os_chdir (cwd w) w5) as [[[]|e6] w6]; simpl in C6 |- *;
      [done|intros _; congruence].
Qed.

End SetupCwd.

(** C2, witness: a run that copies one photo and one video returns to the
    directory it started in; a run that is told to move the same video
    twice raises and stays in the working directory. *)
Lemma setup_cwd_restored_on_success_witness :
  let w := sample_world_configured
             [AnsBool true; AnsText "*"; AnsInt 1; AnsText "a.mp4"] in
  let w' := sample_world_configured
              [AnsBool false; AnsInt 2; AnsText "a.mp4"; AnsText "a.mp4"] in
  ((@setup sample_libs false w).1 = Ok tt ∧
   cwd (@setup sample_libs false w).2 = cwd w) ∧
  ((@setup sample_libs true w').1 = Raise (FileNotFoundError ["sd"; "a.mp4"]) ∧
   cwd (@setup sample_libs true w').2 = ["work"]).
Proof.
  split.
  - split; [vm_compute; reflexivity|].
    apply (proj1 (@setup_cwd_restored_on_success sample_libs false
                    (sample_world_configured
                       [AnsBool true; AnsText "*"; AnsInt 1;
                        AnsText "a.mp4"]))).
    vm_compute; reflexivity.
  - split; [vm_compute; reflexivity|].
    pose proof (proj2 (proj2 (@setup_cwd_restored_on_success sample_libs true
                  (sample_world_configured
                     [AnsBool false; AnsInt 2; AnsText "a.mp4";
                      AnsText "a.mp4"])))
                  (FileNotFoundError ["sd"; "a.mp4"]) ["sd"] ["work"]) as Hw.
    apply Hw; vm_compute; reflexivity.
Defined.

(** C2, as stated, fails: in move mode the caller names the same video
    twice; the second move finds the file gone and raises, and the process
    is left in the working directory instead of the one it started in. *)
Lemma setup_failure_leaves_cwd_changed :
  let w := sample_world_configured
             [AnsBool false; AnsInt 2; AnsText "a.mp4"; AnsText "a.mp4"] in
  let r := @setup sample_libs true w in
  r.1 = Raise (FileNotFoundError ["sd"; "a.mp4"]) ∧
  cwd w = ["home"] ∧
  cwd r.2 = ["work"] ∧
  fs r.2 !! ["work"; "input"; "video0"; "a.mp4"] = Some (File true "MP4abcdefg").
Proof. vm_compute. done. Qed.

(** ** Numbered names *)

Lemma string_length_app (s t : string) :
  String.length (s +:+ t) = String.length s + String.length t.
Proof.
  induction s as [|a s IH]; [done|].
  change (S (String.length (s +:+ t)) = S (String.length s + String.length t)).
  by rewrite IH.
Qed.

Lemma zeros_length k : String.length (zeros k) = k.
Proof. induction k as [|k IH]; simpl; by rewrite ?IH. Qed.

Lemma pretty_N_go_head (x : N) :
  (0 < x)%N → ∀ s, ∃ c t, pretty_N_go x s = String c t ∧ c ≠ "0"%char.
Proof.
  induction (N.lt_wf_0 x) as [x _ IH]. intros Hx s.
  rewrite pretty_N_go_step by done.
  destruct (decide (x < 10)%N) as [Hlt|Hge].
  - rewrite N.div_small by done. rewrite pretty_N_go_0.
    rewrite N.mod_small by done. eexists _, _. split; [done|].
    assert (x = 1 ∨ x = 2 ∨ x = 3 ∨ x = 4 ∨ x = 5 ∨ x = 6
            ∨ x = 7 ∨ x = 8 ∨ x = 9)%N as Hc by lia.
    repeat (destruct Hc as [->|Hc]; [done|]). by subst.
  - apply IH.
    + apply N.div_lt; lia.
    + apply N.div_str_pos. lia.
Qed.


Lemma pretty_nat_0 : pretty 0 = "0".
Proof. done. Qed.

Lemma pretty_nat_head (a : nat) :
  a ≠ 0 → ∃ c t, pretty a = String c t ∧ c ≠ "0"%char.
Proof.
  intros Ha. unfold pretty, pretty_nat, pretty, pretty_N.
  rewrite decide_False by lia. apply pretty_N_go_head. lia.
Qed.

Lemma pretty_nat_nonempty (a : nat) : (1 ≤ String.length (pretty a))%nat.
Proof.
  destruct (decide (a = 0)) as [->|Ha]; [done|].
  destruct (pretty_nat_head a Ha) as (c & t & -> & _). simpl. lia.
Qed.


Lemma zeros_app_inv k k' (s s' : string) :
  zeros k +:+ s = zeros k' +:+ s' → (k ≤ k')%nat → s = zeros (k' - k) +:+ s'.
Proof.
  revert k'. induction k as [|k IH]; intros k' E Hle.
  - by rewrite Nat.sub_0_r.
  - destruct k' as [|k']; [lia|]. simpl in E.
    change (String "0" (zeros k +:+ s) = String "0" (zeros k' +:+ s')) in E.
    injection E as E. apply IH in E; [done|lia].
Qed.

Lemma pretty_zero_padded (a b d : nat) :
  pretty a = zeros d +:+ pretty b → a = b.
Proof.
  destruct d as [|d].
  { intros E. change (pretty a = pretty b) in E. by apply (inj pretty). }
  intros E. exfalso.
  destruct (decide (a = 0)) as [->|Ha].
  - rewrite pretty_nat_0 in E.
    apply (f_equal String.length) in E.
    rewrite string_length_app, zeros_length in E.
    pose proof (pretty_nat_nonempty b). simpl in E. lia.
  - destruct (pretty_nat_head a Ha) as (c & t & Ec & Hc).
    rewrite Ec in E. simpl in E.
    change (String c t = String "0" (zeros d +:+ pretty b)) in E.
    by injection E as -> _.
Qed.

Lemma fmt05_inj (a b : nat) : fmt05 a = fmt05 b → a = b.
Proof.
  unfold fmt05. intros E.
  destruct (decide (5 - String.length (pretty a)
                    ≤ 5 - String.length (pretty b))%nat) as [Hle|Hgt].
  - apply zeros_app_inv in E; [|done]. by apply pretty_zero_padded in E.
  - symmetry in E. apply zeros_app_inv in E; [|lia].
    symmetry. by apply pretty_zero_padded in E.
Qed.



Lemma string_app_inj_r (s1 s2 t : string) : s1 +:+ t = s2 +:+ t → s1 = s2.
Proof.
  revert s2. induction s1 as [|a s1 IH]; intros [|b s2] E; try done.
  - apply (f_equal String.length) in E.
    change (String.length t = S (String.length (s2 +:+ t))) in E.
    rewrite string_length_app in E. lia.
  - apply (f_equal String.length) in E.
    change (S (String.length (s1 +:+ t)) = String.length t) in E.
    rewrite string_length_app in E. lia.
  - change (String a (s1 +:+ t) = String b (s2 +:+ t)) in E.
    injection E as -> E. f_equal. by apply IH.
Qed.

Lemma frame_fname_inj (a b : nat) : frame_fname a = frame_fname b → a = b.
Proof. intros E. by apply fmt05_inj, (string_app_inj_r _ _ ".jpg"). Qed.

Lemma unit_video_inj (a b : nat) : unit_video a = unit_video b → a = b.
Proof. intros E. by apply (inj pretty), (inj (String.app "video")). Qed.

Lemma unit_set_inj (a b : nat) : unit_set a = unit_set b → a = b.
Proof. intros E. by apply (inj pretty), (inj (String.app "set")). Qed.

(** ** [extract]: the loop over the chosen units *)

Lemma prompt_from_Choice available w l c l' :
  prompt_from (click_Choice available w) l = (Ok c, l') → c ∈ available.
Proof.
  induction l as [|a l IH]; simpl; [done|].
  destruct (click_Choice available w a) as [s|] eqn:E; [|done].
  intros [= <- <-]. unfold click_Choice in E.
  destruct a as [| |s']; try done. case_decide; [|done]. by injection E as <-.
Qed.

Lemma click_prompt_Choice available w c w1 :
  click_prompt (click_Choice available) w = (Ok c, w1) →
  c ∈ available ∧ ∃ l, w1 = set_stdin l w.
Proof.
  unfold click_prompt.
  destruct (prompt_from (click_Choice available w) (stdin w)) as [r l] eqn:E.
  intros [= -> <-]. split; [by eapply prompt_from_Choice|eauto].
Qed.

Section ExtractLoop.
Context `{Libraries}.


Lemma turn_ok_loop working s s' :
  turn_ok working s s' →
  (extract_loop working s.1.1.1 s.1.1.2 s.1.2 s.2).2
  = (extract_loop working s'.1.1.1 s'.1.1.2 s'.1.2 s'.2).2.
Proof.
  intros [i turns available w choice w1 w2 Hp Hu]. simpl.
  by rewrite Hp, Hu.
Qed.

Lemma turns_ok_loop working s s' :
  rtc (turn_ok working) s s' →
  (extract_loop working s.1.1.1 s.1.1.2 s.1.2 s.2).2
  = (extract_loop working s'.1.1.1 s'.1.1.2 s'.1.2 s'.2).2.
Proof.
  induction 1 as [|s1 s2 s3 H12 _ IH]; [done|].
  by rewrite (turn_ok_loop _ _ _ H12).
Qed.


Lemma os_makedirs_Ok (p : path) (w : world) :
  dir_capable (fs w) p = true →
  ∃ w', os_makedirs p true w = (Ok tt, w') ∧
        (∃ f, w' = set_fs f w) ∧
        fs w' !! p = Some Dir ∧
        (∀ q nd, fs w !! q = Some nd → fs w' !! q = Some nd) ∧
        (∀ q, ¬ q `prefix_of` p → fs w' !! q = fs w !! q).
Proof.
  intros Hcap. pose proof (dir_capable_not_file _ _ Hcap) as Hnf.
  unfold os_makedirs. destruct (fs w !! p) as [[|r d]|] eqn:E; [|done|].
  - exists w. split; [done|]. split; [exists (fs w); by destruct w|]. done.
  - rewrite Hcap. eexists. split; [done|]. split; [eauto|]. simpl.
    split; [|split].
    + rewrite lookup_mkdirs, E, decide_True; [done|]. by apply elem_of_prefixes.
    + intros q nd Hq. by rewrite lookup_mkdirs, Hq.
    + intros q Hq. rewrite lookup_mkdirs. destruct (fs w !! q); [done|].
      rewrite decide_False; [done|]. by rewrite elem_of_prefixes.
Qed.


End ExtractLoop.


(** ** [extract_video] *)

Lemma parent_snoc (p : path) (n : string) : parent (p ++ [n]) = p.
Proof.
  unfold parent. rewrite length_app. simpl.
  replace (length p + 1 - 1) with (length p) by lia.
  by rewrite take_app_length.
Qed.

Lemma snoc_ne (p : path) (n : string) : p ++ [n] ≠ p.
Proof.
  intros E. apply (f_equal length) in E. rewrite length_app in E.
  simpl in E. lia.
Qed.

Lemma mod_Z_of_nat (c n : nat) :
  1 ≤ n → (Z.of_nat c `mod` Z.of_nat n)%Z = 0%Z ↔ c `mod` n = 0.
Proof.
  intros Hn. rewrite <- Nat2Z.inj_mod. lia.
Qed.

Lemma stride_hit (c i n : nat) :
  1 ≤ n → c ≤ i * n → i * n < c + n → c `mod` n = 0 → c = i * n.
Proof.
  intros Hn Hle Hlt Hmod.
  apply Nat.Div0.mod_divides in Hmod as [k ->].
  assert (k = i) as ->; [|lia].
  apply Nat.le_antisymm.
  - apply (Nat.mul_le_mono_pos_l _ _ n); lia.
  - assert (i < k + 1); [|lia]. apply (Nat.mul_lt_mono_pos_l n); lia.
Qed.

Lemma stride_miss (c i n : nat) :
  1 ≤ n → c ≤ i * n → c `mod` n ≠ 0 → c < i * n.
Proof.
  intros Hn Hle Hmod.
  destruct (decide (c = i * n)) as [->|]; [|lia].
  by rewrite Nat.Div0.mod_mul in Hmod.
Qed.

Lemma stride_next (i j n c : nat) :
  i ≤ j → c < i * n → j * n - c = S (j * n - (c + 1)).
Proof.
  intros Hij Hc.
  assert (i * n ≤ j * n) by (apply Nat.mul_le_mono_r; lia). lia.
Qed.

Lemma ceil_div_lt (F n j : nat) :
  1 ≤ n → j * n < F ↔ j < (F + n - 1) `div` n.
Proof.
  intros Hn.
  pose proof (Nat.div_mod (F + n - 1) n ltac:(lia)) as Hd.
  pose proof (Nat.mod_upper_bound (F + n - 1) n ltac:(lia)) as Hm.
  set (k := (F + n - 1) `div` n) in *.
  set (r := (F + n - 1) `mod` n) in *.
  split.
  - intros Hj. destruct (decide (j < k)) as [|Hge]; [done|]. exfalso.
    assert (n * k ≤ n * j) by (apply Nat.mul_le_mono_l; lia). lia.
  - intros Hj.
    assert (n * (j + 1) ≤ n * k) by (apply Nat.mul_le_mono_l; lia). lia.
Qed.

Section Sampler.
Context `{Libraries}.

Lemma cv2_imwrite_file (output : path) (name frame : string) (w : world) :
  fs w !! output = Some Dir →
  fs w !! (output ++ [name]) ≠ Some Dir →
  cv2_imwrite (output ++ [name]) frame w
  = (Ok tt, set_fs (<[output ++ [name] := File true (imencode frame)]> (fs w)) w).
Proof.
  intros Ho Hn. unfold cv2_imwrite, path_isdir. rewrite parent_snoc, Ho.
  by destruct (fs w !! (output ++ [name])) as [[|r d]|].
Qed.

Lemma extract_video_loop_names (output : path) (n : nat) (v : list string) :
  1 ≤ n →
  ∀ (i c : nat) (w : world),
  fs w !! output = Some Dir →
  (∀ j, i ≤ j → j * n - c < length v →
        fs w !! (output ++ [frame_fname j]) ≠ Some Dir) →
  c ≤ i * n → i * n < c + n →
  ∃ f', extract_video_loop v output (Z.of_nat n) i c w = (Ok tt, set_fs f' w) ∧
    (∀ j fr, i ≤ j → v !! (j * n - c) = Some fr →
       f' !! (output ++ [frame_fname j]) = Some (File true (imencode fr))) ∧
    (∀ q, (∀ j, i ≤ j → j * n - c < length v →
             q ≠ output ++ [frame_fname j]) →
       f' !! q = fs w !! q).
Proof.
  intros Hn. induction v as [|frame v IH]; intros i c w Ho Hnd Hle Hlt.
  - exists (fs w). split; [by destruct w|]. split; [|done].
    intros j fr _ Hfr. by rewrite lookup_nil in Hfr.
  - cbn [extract_video_loop]. rewrite decide_False by lia.
    destruct (decide ((Z.of_nat c `mod` Z.of_nat n)%Z = 0%Z)) as [Hz|Hz];
      rewrite mod_Z_of_nat in Hz by done.
    + pose proof (stride_hit c i n Hn Hle Hlt Hz) as ->.
      unfold bind. rewrite cv2_imwrite_file;
        [|done|apply Hnd; [lia|simpl; lia]].
      set (w1 := set_fs _ w).
      destruct (IH (i + 1) (i * n + 1) w1) as (f' & Ef & Hb & Hc).
      { subst w1. simpl. rewrite lookup_insert_ne by apply snoc_ne. done. }
      { intros j Hj Hjl. subst w1. simpl.
        destruct (decide (output ++ [frame_fname i]
                          = output ++ [frame_fname j])) as [<-|Hne].
        - by rewrite lookup_insert_eq.
        - rewrite lookup_insert_ne by done. apply Hnd; [lia|].
          rewrite (stride_next (i + 1) j n (i * n)) by lia. simpl. lia. }
      { lia. }
      { lia. }
      exists f'. split; [by rewrite Ef|]. split.
      * intros j fr Hj Hfr.
        destruct (decide (j = i)) as [->|Hji].
        -- rewrite Nat.sub_diag in Hfr. injection Hfr as <-.
           rewrite Hc.
           ++ subst w1. simpl. apply lookup_insert_eq.
           ++ intros j' Hj' _ E. apply app_inv_head in E.
              injection E as E. apply frame_fname_inj in E. lia.
        -- apply Hb; [lia|].
           rewrite (stride_next (i + 1) j n (i * n)) in Hfr by lia.
           done.
      * intros q Hq. rewrite Hc.
        -- subst w1. simpl. rewrite lookup_insert_ne; [done|].
           intros E. apply (Hq i); [lia|simpl; lia|done].
        -- intros j Hj Hjl. apply Hq; [lia|].
           rewrite (stride_next (i + 1) j n (i * n)) by lia. simpl. lia.
    + pose proof (stride_miss c i n Hn Hle Hz) as Hci.
      destruct (IH i (c + 1) w Ho) as (f' & Ef & Hb & Hc); [|lia..|].
      { intros j Hj Hjl. apply Hnd; [done|].
        rewrite (stride_next i j n c) by lia. simpl. lia. }
      exists f'. split; [done|]. split.
      * intros j fr Hj Hfr. apply Hb; [done|].
        rewrite (stride_next i j n c) in Hfr by lia. done.
      * intros q Hq. apply Hc. intros j Hj Hjl. apply Hq; [done|].
        rewrite (stride_next i j n c) by lia. simpl. lia.
Qed.

Lemma extract_video_loop_spec (output : path) (n : nat) (v : list string) :
  1 ≤ n →
  ∀ (i c : nat) (w : world),
  fs w !! output = Some Dir →
  (∀ m, fs w !! (output ++ [m]) ≠ Some Dir) →
  c ≤ i * n → i * n < c + n →
  ∃ f', extract_video_loop v output (Z.of_nat n) i c w = (Ok tt, set_fs f' w) ∧
    (∀ j fr, i ≤ j → v !! (j * n - c) = Some fr →
       f' !! (output ++ [frame_fname j]) = Some (File true (imencode fr))) ∧
    (∀ q, (∀ j, i ≤ j → j * n - c < length v →
             q ≠ output ++ [frame_fname j]) →
       f' !! q = fs w !! q).
Proof.
  intros Hn i c w Ho Hnd. apply extract_video_loop_names; [done..|].
  intros j _ _. apply Hnd.
Qed.


End Sampler.



(** ** [setup]: the staged layout *)

Lemma os_makedirs_inv (p : path) (w w' : world) :
  os_makedirs p true w = (Ok tt, w') →
  ∃ f, w' = set_fs f w ∧ f !! p = Some Dir ∧
       (∀ q nd, fs w !! q = Some nd → f !! q = Some nd) ∧
       (∀ q nd, f !! q = Some nd →
                fs w !! q = Some nd ∨ (nd = Dir ∧ q `prefix_of` p)).
Proof.
  unfold os_makedirs. destruct (fs w !! p) as [[|r d]|] eqn:E; [|done|].
  - intros [= <-]. exists (fs w). split; [by destruct w|]. eauto.
  - destruct (dir_capable (fs w) p); [|done]. intros [= <-].
    eexists. split; [done|]. split; [|split].
    + rewrite lookup_mkdirs, E, decide_True; [done|]. by apply elem_of_prefixes.
    + intros q nd Hq. by rewrite lookup_mkdirs, Hq.
    + intros q nd. rewrite lookup_mkdirs.
      destruct (fs w !! q); [by left|].
      case_decide as Hin; [|done]. intros [= <-]. right.
      split; [done|]. by apply elem_of_prefixes.
Qed.

Section Layout.
Context (working source : path) (sel_images sel_videos : list string).

Lemma slots_disjoint r :
  dir_slot sel_images sel_videos r → file_slot sel_videos r → False.
Proof.
  intros Hd Hf.
  assert (length r = 3) as H3 by (destruct Hf as [[? ->]|(? & ? & _ & ->)]; done).
  destruct Hd as [->|[->|[->|[[-> _]|(i & _ & ->)]]]]; done.
Qed.

Lemma dir_slot_prefix r0 r :
  dir_slot sel_images sel_videos r0 → r `prefix_of` r0 →
  dir_slot sel_images sel_videos r.
Proof.
  intros Hd Hp. apply elem_of_prefixes in Hp. unfold dir_slot in *.
  destruct Hd as [->|[->|[->|[[-> Hi]|(i & Hi & ->)]]]]; simpl in Hp;
    repeat (apply elem_of_cons in Hp as [->|Hp]; [eauto 10|]);
    by apply elem_of_nil in Hp.
Qed.

Lemma persists_refl f : persists working f f.
Proof. by intros r. Qed.

Lemma persists_trans f1 f2 f3 :
  persists working f1 f2 → persists working f2 f3 → persists working f1 f3.
Proof.
  intros H12 H23 r. destruct (H12 r) as [? ?], (H23 r) as [? ?]. split; auto.
Qed.

Lemma shape_makedirs r0 w w' :
  staged_shape working sel_images sel_videos (fs w) →
  dir_slot sel_images sel_videos r0 →
  os_makedirs (working ++ r0) true w = (Ok tt, w') →
  staged_shape working sel_images sel_videos (fs w')
  ∧ persists working (fs w) (fs w')
  ∧ fs w' !! (working ++ r0) = Some Dir.
Proof.
  intros Hs Hd (f & -> & Hp & Hold & Hnew)%os_makedirs_inv. simpl.
  split; [|split; [|done]].
  - intros r nd Hr. destruct (Hnew _ _ Hr) as [Ho|[-> Hpre]].
    + by apply Hs in Ho.
    + apply prefix_app_inv in Hpre. by eapply dir_slot_prefix.
  - intros r. split.
    + apply Hold.
    + destruct (fs w !! (working ++ r)) as [[|b d]|] eqn:E; try done.
      by rewrite (Hold _ _ E).
Qed.

Lemma shape_not_dir f r :
  staged_shape working sel_images sel_videos f → file_slot sel_videos r →
  path_isdir f (working ++ r) = false.
Proof.
  intros Hs Hf. unfold path_isdir.
  destruct (f !! (working ++ r)) as [[|b d]|] eqn:E; try done.
  apply Hs in E. destruct (slots_disjoint r E Hf).
Qed.

Lemma shape_insert_file f r b d :
  staged_shape working sel_images sel_videos f → file_slot sel_videos r →
  staged_shape working sel_images sel_videos (<[working ++ r := File b d]> f).
Proof.
  intros Hs Hf r' nd. destruct (decide (r = r')) as [<-|Hne].
  - rewrite lookup_insert_eq. by intros [= <-].
  - rewrite lookup_insert_ne; [apply Hs|]. by intros ?%app_inv_head.
Qed.

Lemma shape_delete f q :
  staged_shape working sel_images sel_videos f →
  staged_shape working sel_images sel_videos (delete q f).
Proof.
  intros Hs r nd Hr. apply lookup_delete_Some in Hr as [_ Hr]. by apply Hs.
Qed.

Lemma copy_step src r w w' :
  staged_shape working sel_images sel_videos (fs w) →
  file_slot sel_videos r →
  shutil_copy src (working ++ r) w = (Ok tt, w') →
  staged_shape working sel_images sel_videos (fs w')
  ∧ persists working (fs w) (fs w')
  ∧ is_file (fs w' !! (working ++ r)) = true.
Proof.
  intros Hs Hf. unfold shutil_copy. cbn zeta.
  rewrite !(shape_not_dir _ _ Hs Hf).
  case_decide; [done|].
  destruct (fs w !! src) as [[|[] d]|]; try done.
  destruct (path_isdir (fs w) (parent (working ++ r))); [|done].
  intros [= <-]. simpl. split; [by apply shape_insert_file|]. split.
  - intros r'. destruct (decide (r = r')) as [<-|Hne].
    + rewrite lookup_insert_eq. split; [|done].
      intros E. apply Hs in E. destruct (slots_disjoint r E Hf).
    + rewrite lookup_insert_ne; [done|]. by intros ?%app_inv_head.
  - by rewrite lookup_insert_eq.
Qed.

Lemma move_step x r w w' :
  (∀ r', r' ≠ [] → source ≠ working ++ r') →
  staged_shape working sel_images sel_videos (fs w) →
  file_slot sel_videos r →
  shutil_move (source ++ [x]) (working ++ r) w = (Ok tt, w') →
  staged_shape working sel_images sel_videos (fs w')
  ∧ persists working (fs w) (fs w')
  ∧ is_file (fs w' !! (working ++ r)) = true.
Proof.
  intros Hns Hs Hf. unfold shutil_move. cbn zeta.
  rewrite !(shape_not_dir _ _ Hs Hf). simpl.
  destruct (fs w !! (source ++ [x])) as [[|b d]|] eqn:Esrc; try done.
  case_decide as Hsame.
  { intros [= <-]. split; [done|]. split; [apply persists_refl|].
    by rewrite <- Hsame, Esrc. }
  destruct (path_isdir (fs w) (parent (working ++ r))); [|done].
  intros [= <-]. simpl.
  split; [apply shape_insert_file; [by apply shape_delete|done]|]. split.
  - intros r'. destruct (decide (r = r')) as [<-|Hne].
    + rewrite lookup_insert_eq. split; [|done].
      intros E. apply Hs in E. destruct (slots_disjoint r E Hf).
    + rewrite lookup_insert_ne by (by intros ?%app_inv_head).
      destruct (decide (source ++ [x] = working ++ r')) as [E|Hnsrc].
      * rewrite <- E, Esrc. split; [done|]. intros _. exfalso.
        rewrite E in Esrc. apply Hs in Esrc.
        destruct Esrc as [[img ->]|(i & vid & _ & ->)].
        -- apply (Hns ["input"; "images"]); [done|].
           change ["input"; "images"; img] with (["input"; "images"] ++ [img]) in E.
           rewrite app_assoc in E. by apply app_inj_tail in E as [-> _].
        -- apply (Hns ["input"; unit_video i]); [done|].
           change ["input"; unit_video i; vid]
             with (["input"; unit_video i] ++ [vid]) in E.
           rewrite app_assoc in E. by apply app_inj_tail in E as [-> _].
      * by rewrite lookup_delete_ne.
  - by rewrite lookup_insert_eq.
Qed.

Lemma transfer_step (move : bool) x r w w' :
  (∀ r', r' ≠ [] → source ≠ working ++ r') →
  staged_shape working sel_images sel_videos (fs w) →
  file_slot sel_videos r →
  (if move then shutil_move else shutil_copy)
    (source ++ [x]) (working ++ r) w = (Ok tt, w') →
  staged_shape working sel_images sel_videos (fs w')
  ∧ persists working (fs w) (fs w')
  ∧ is_file (fs w' !! (working ++ r)) = true.
Proof.
  destruct move; [apply move_step|intros _; apply copy_step].
Qed.

(** A loop whose every turn keeps the shape and what is already there. *)
Lemma for_each_steps {A} (body : A → M unit) (Q : A → filesystem → Prop)
    (l : list A) :
  (∀ a w w', a ∈ l → staged_shape working sel_images sel_videos (fs w) →
     body a w = (Ok tt, w') →
     staged_shape working sel_images sel_videos (fs w')
     ∧ persists working (fs w) (fs w') ∧ Q a (fs w')) →
  (∀ a f f', persists working f f' → Q a f → Q a f') →
  ∀ w w', staged_shape working sel_images sel_videos (fs w) →
  for_each body l w = (Ok tt, w') →
  staged_shape working sel_images sel_videos (fs w')
  ∧ persists working (fs w) (fs w') ∧ ∀ a, a ∈ l → Q a (fs w').
Proof.
  intros Hstep Hstable. induction l as [|a l IH]; intros w w' Hs; simpl.
  - intros [= <-]. split; [done|]. split; [apply persists_refl|].
    intros a Ha. by apply elem_of_nil in Ha.
  - intros ([] & w1 & E1 & E2)%bind_Ok.
    destruct (Hstep a w w1 ltac:(left) Hs E1) as (Hs1 & Hp1 & Hq1).
    destruct (IH ltac:(intros; eapply Hstep; eauto; by right) w1 w' Hs1 E2)
      as (Hs2 & Hp2 & Hq2).
    split; [done|]. split; [by eapply persists_trans|].
    intros b [->|Hb]%elem_of_cons; [by eapply Hstable|by apply Hq2].
Qed.

Lemma unit_video_not_images i : unit_video i ≠ "images".
Proof.
  unfold unit_video.
  change ("video" +:+ pretty i) with (String "v" ("ideo" +:+ pretty i)).
  discriminate.
Qed.

Lemma shape_empty_dir f :
  empty_dir f working → staged_shape working sel_images sel_videos f.
Proof.
  intros [Hd He] r nd Hr. destruct (decide (r = [])) as [->|Hne].
  - rewrite app_nil_r, Hd in Hr. injection Hr as <-. by left.
  - by rewrite He in Hr.
Qed.

Lemma materialize_spec w w' :
  staged_shape working sel_images sel_videos (fs w) →
  materialize working sel_images sel_videos w = (Ok tt, w') →
  staged_shape working sel_images sel_videos (fs w')
  ∧ persists working (fs w) (fs w')
  ∧ (sel_images ≠ [] → fs w' !! (working ++ ["input"; "images"]) = Some Dir)
  ∧ (∀ i, i < length sel_videos →
          fs w' !! (working ++ ["input"; unit_video i]) = Some Dir)
  ∧ fs w' !! (working ++ ["output"]) = Some Dir.
Proof.
  intros Hs. unfold materialize.
  intros ([] & w1 & E1 & E)%bind_Ok.
  apply bind_Ok in E as ([] & w2 & E2 & E3).
  assert (staged_shape working sel_images sel_videos (fs w1)
          ∧ persists working (fs w) (fs w1)
          ∧ (sel_images ≠ [] →
             fs w1 !! (working ++ ["input"; "images"]) = Some Dir))
    as (Hs1 & Hp1 & Hi1).
  { case_bool_decide as Hi.
    - injection E1 as <-. split; [done|]. split; [apply persists_refl|done].
    - apply shape_makedirs in E1 as (? & ? & ?); [done..|].
      right. right. right. by left. }
  apply (for_each_steps _
           (λ i f, f !! (working ++ ["input"; unit_video i]) = Some Dir))
    in E2 as (Hs2 & Hp2 & Hv2); [|..|done].
  2:{ intros i u u' Hi%elem_of_seq Hu Eu.
      apply shape_makedirs in Eu as (? & ? & ?); [done..|].
      do 4 right. exists i. split; [lia|done]. }
  2:{ intros i f f' Hp Hf. by apply Hp. }
  apply shape_makedirs in E3 as (Hs3 & Hp3 & Ho3);
    [|done|right; right; by left].
  split; [done|]. split; [eauto using persists_trans|].
  split; [|split; [|done]].
  - intros Hi. by apply Hp3, Hp2, Hi1.
  - intros i Hi. apply Hp3, Hv2. apply elem_of_seq. lia.
Qed.

Lemma elem_of_enumerate (l : list string) i v :
  (i, v) ∈ zip (seq 0 (length l)) l ↔ l !! i = Some v.
Proof.
  rewrite list_elem_of_lookup. split.
  - intros [j Hj]. apply lookup_zip_with_Some in Hj as (a & b & E & Ha & Hb).
    injection E as <- <-. apply lookup_seq in Ha as [-> _]. done.
  - intros Hv. exists i. apply lookup_zip_with_Some. exists i, v.
    split; [done|]. split; [|done].
    apply lookup_seq. split; [done|]. by eapply lookup_lt_Some.
Qed.

Lemma transfer_spec (move : bool) w w' :
  (∀ r', r' ≠ [] → source ≠ working ++ r') →
  staged_shape working sel_images sel_videos (fs w) →
  transfer move source working sel_images sel_videos w = (Ok tt, w') →
  staged_shape working sel_images sel_videos (fs w')
  ∧ persists working (fs w) (fs w')
  ∧ (∀ i vid, sel_videos !! i = Some vid →
       is_file (fs w' !! (working ++ ["input"; unit_video i; vid])) = true).
Proof.
  intros Hns Hs. unfold transfer. cbn zeta.
  intros ([] & w1 & E1 & E)%bind_Ok.
  apply bind_Ok in E as ([] & w2 & E2 & E).
  apply bind_Ok in E as ([] & w3 & E3 & E4).
  injection E2 as <-. injection E4 as <-. simpl.
  apply (for_each_steps _ (λ _ _, True)) in E1 as (Hs1 & Hp1 & _);
    [|..|done].
  2:{ intros img u u' _ Hu Eu.
      apply transfer_step in Eu as (? & ? & _); [done..|].
      left. by exists img. }
  2:{ done. }
  apply (for_each_steps _
           (λ iv f, is_file (f !! (working ++ ["input"; unit_video iv.1; iv.2]))
                    = true))
    in E3 as (Hs3 & Hp3 & Hv3); [|..|done].
  2:{ intros [i vid] u u' Hiv%elem_of_enumerate Hu Eu.
      apply transfer_step in Eu as (? & ? & ?); [done..|].
      right. by exists i, vid. }
  2:{ intros iv f f' Hp Hf. by apply Hp. }
  split; [done|]. split; [eauto using persists_trans|].
  intros i vid Hiv. apply (Hv3 (i, vid)). by apply elem_of_enumerate.
Qed.

Lemma singleton_list (l : list string) v :
  NoDup l → (∀ x, x ∈ l ↔ x = v) → l = [v].
Proof.
  intros Hnd Hl. destruct l as [|a l].
  { assert (v ∈ @nil string) as Hv by by apply Hl. by apply elem_of_nil in Hv. }
  assert (a = v) as -> by (apply Hl; left).
  destruct l as [|b l]; [done|]. exfalso.
  assert (b = v) as -> by (apply Hl; right; left).
  apply NoDup_cons in Hnd as [Hn _]. apply Hn. left.
Qed.

Lemma staged_layout f :
  staged_shape working sel_images sel_videos f →
  (sel_images ≠ [] → f !! (working ++ ["input"; "images"]) = Some Dir) →
  (∀ i, i < length sel_videos →
        f !! (working ++ ["input"; unit_video i]) = Some Dir) →
  (∀ i vid, sel_videos !! i = Some vid →
     is_file (f !! (working ++ ["input"; unit_video i; vid])) = true) →
  (∀ i vid, sel_videos !! i = Some vid →
     f !! (working ++ ["input"; unit_video i]) = Some Dir ∧
     children f (working ++ ["input"; unit_video i]) = [vid] ∧
     is_file (f !! (working ++ ["input"; unit_video i; vid])) = true) ∧
  (∀ i, length sel_videos ≤ i →
     f !! (working ++ ["input"; unit_video i]) = None) ∧
  (is_Some (f !! (working ++ ["input"; "images"])) ↔ sel_images ≠ []).
Proof.
  intros Hs Hi Hv Hf. split; [|split].
  - intros i vid Hiv. split; [|split; [|by apply Hf]].
    { apply Hv. by eapply lookup_lt_Some. }
    apply singleton_list; [apply NoDup_children|].
    intros x. rewrite elem_of_children, <- app_assoc. simpl. split.
    + intros [nd Hnd]. apply Hs in Hnd. destruct nd as [|b d].
      * destruct Hnd as [?|[?|[?|[[? _]|(? & _ & ?)]]]]; done.
      * destruct Hnd as [[img E]|(i' & vid' & Hiv' & E)].
        -- assert (unit_video i = "images") as E' by congruence.
           by apply unit_video_not_images in E'.
        -- assert (unit_video i = unit_video i') as E' by congruence.
           apply unit_video_inj in E' as <-. congruence.
    + intros ->. specialize (Hf i vid Hiv).
      destruct (f !! (working ++ ["input"; unit_video i; vid])); [eauto|done].
  - intros i Hi'.
    destruct (f !! (working ++ ["input"; unit_video i])) as [nd|] eqn:E;
      [|done].
    exfalso. apply Hs in E. destruct nd as [|b d].
    + destruct E as [E|[E|[E|[[E _]|(i' & Hi'' & E)]]]];
        [discriminate E..| |].
      * assert (unit_video i = "images") as E' by congruence.
        by apply unit_video_not_images in E'.
      * assert (unit_video i = unit_video i') as E' by congruence.
        apply unit_video_inj in E'. lia.
    + destruct E as [[? ?]|(? & ? & _ & ?)]; done.
  - split; [|intros ?; rewrite Hi; eauto].
    intros [nd E]. apply Hs in E. destruct nd as [|b d].
    + destruct E as [E|[E|[E|[[_ ?]|(i' & _ & E)]]]];
        [discriminate E..|done|].
      assert (unit_video i' = "images") as E' by congruence.
      by apply unit_video_not_images in E'.
    + destruct E as [[? ?]|(? & ? & _ & ?)]; done.
Qed.

End Layout.

Lemma os_chdir_Ok (p : path) (w w' : world) :
  os_chdir p w = (Ok tt, w') → fs w !! p = Some Dir ∧ w' = set_cwd p w.
Proof.
  unfold os_chdir. destruct (fs w !! p) as [[|r d]|]; try done.
  by intros [= <-].
Qed.

Section Stage.
Context `{Libraries}.

(** C7, as it holds: a staging run that starts from an empty working
    directory and completes leaves, for the images and the videos the caller
    selected
    (the videos in the order they were named): one directory
    [input/video{i}] for each position [i] of the selection and none with a
    larger number, each holding exactly one entry, the file named at that
    position; the directory [input/images] if and only if at least one image
    was selected; and the directory [output] in every case. *)
Theorem stage_layout (move : bool) (source working : path) (w w' : world) :
  empty_dir (fs w) working →
  stage move source working w = (Ok tt, w') →
  ∃ sel_images sel_videos w1,
    select source (set_cwd source w) = (Ok (sel_images, sel_videos), w1) ∧
    (∀ i vid, sel_videos !! i = Some vid →
       fs w' !! (working ++ ["input"; unit_video i]) = Some Dir ∧
       children (fs w') (working ++ ["input"; unit_video i]) = [vid] ∧
       is_file (fs w' !! (working ++ ["input"; unit_video i; vid])) = true) ∧
    (∀ i, length sel_videos ≤ i →
       fs w' !! (working ++ ["input"; unit_video i]) = None) ∧
    (is_Some (fs w' !! (working ++ ["input"; "images"])) ↔ sel_images ≠ []) ∧
    fs w' !! (working ++ ["output"]) = Some Dir.
Proof.
  intros Hempty. unfold stage.
  intros (curdir & w0 & E0 & E)%bind_Ok. injection E0 as <- <-.
  apply bind_Ok in E as ([] & w2 & E2 & E).
  apply os_chdir_Ok in E2 as [Hsrc ->].
  apply bind_Ok in E as ([sel_images sel_videos] & w3 & E3 & E).
  apply bind_Ok in E as ([] & w4 & E4 & E).
  apply os_chdir_Ok in E4 as [_ ->].
  apply bind_Ok in E as ([] & w5 & E5 & E).
  apply bind_Ok in E as ([] & w6 & E6 & E7).
  apply os_chdir_Ok in E7 as [_ ->].
  exists sel_images, sel_videos, w3. split; [done|].
  destruct (reads_only_select source (set_cwd source w)) as (Hfs & _).
  rewrite E3 in Hfs. simpl in *.
  assert (staged_shape working sel_images sel_videos (fs w3)) as Hs3.
  { rewrite Hfs. by apply shape_empty_dir. }
  assert (∀ r', r' ≠ [] → source ≠ working ++ r') as Hns.
  { intros r' Hr' ->. destruct Hempty as [_ He]. by rewrite He in Hsrc. }
  apply materialize_spec in E5 as (Hs5 & Hp5 & Hi5 & Hv5 & Ho5); [|done].
  apply (transfer_spec working source) in E6 as (Hs6 & Hp6 & Hf6); [|done..].
  destruct (staged_layout working sel_images sel_videos (fs w6))
    as (L1 & L2 & L3); try done.
  - intros Hi. by apply Hp6, Hi5.
  - intros i Hi. by apply Hp6, Hv5.
  - split; [done|]. split; [done|]. split; [done|]. by apply Hp6.
Qed.

End Stage.

Lemma sample_fs_work_empty : empty_dir sample_fs ["work"].
Proof.
  split; [reflexivity|]. intros r Hr.
  destruct (sample_fs !! (["work"] ++ r)) as [nd|] eqn:E; [|done].
  exfalso. unfold sample_fs in E. apply elem_of_list_to_map_2 in E.
  simpl in E.
  repeat (apply elem_of_cons in E as [E|E]; [by simplify_eq|]).
  by apply elem_of_nil in E.
Qed.

(** C7, witness: the caller selects all photos and then names [b.mp4]
    before [a.mp4]. *)
Lemma stage_layout_witness :
  let w := sample_world_configured
             [AnsBool true; AnsText "*"; AnsInt 2;
              AnsText "b.mp4"; AnsText "a.mp4"] in
  let w' := (@stage sample_libs false ["sd"] ["work"] w).2 in
  empty_dir (fs w) ["work"] ∧
  ∃ sel_images sel_videos w1,
    @select sample_libs ["sd"] (set_cwd ["sd"] w)
    = (Ok (sel_images, sel_videos), w1) ∧
    (∀ i vid, sel_videos !! i = Some vid →
       fs w' !! (["work"] ++ ["input"; unit_video i]) = Some Dir ∧
       children (fs w') (["work"] ++ ["input"; unit_video i]) = [vid] ∧
       is_file (fs w' !! (["work"] ++ ["input"; unit_video i; vid])) = true) ∧
    (∀ i, length sel_videos ≤ i →
       fs w' !! (["work"] ++ ["input"; unit_video i]) = None) ∧
    (is_Some (fs w' !! (["work"] ++ ["input"; "images"])) ↔ sel_images ≠ []) ∧
    fs w' !! (["work"] ++ ["output"]) = Some Dir.
Proof.
  split; [exact sample_fs_work_empty|].
  apply (@stage_layout sample_libs false ["sd"] ["work"]).
  - exact sample_fs_work_empty.
  - vm_compute; reflexivity.
Defined.

(** The selection of that run, in the caller's order. *)
Lemma stage_layout_sample_selection :
  let w := sample_world_configured
             [AnsBool true; AnsText "*"; AnsInt 2;
              AnsText "b.mp4"; AnsText "a.mp4"] in
  (@select sample_libs ["sd"] (set_cwd ["sd"] w)).1
  = Ok (["p.jpg"], ["b.mp4"; "a.mp4"]) ∧
  children (fs (@stage sample_libs false ["sd"] ["work"] w).2)
    ["work"; "input"; "video0"] = ["b.mp4"].
Proof. vm_compute. done. Qed.

(** C7, as stated, fails: a second staging run in the same session finds
    the units of the first one; staging one video again puts a second file
    into [input/video0]. *)
Lemma stage_twice_two_files :
  let w1 := (@setup sample_libs false
               (sample_world_configured
                  [AnsBool false; AnsInt 1; AnsText "a.mp4"])).2 in
  let r := @setup sample_libs false
             (set_stdin [AnsBool false; AnsInt 1; AnsText "b.mp4"] w1) in
  r.1 = Ok tt ∧
  fs r.2 !! ["work"; "input"; "video0"; "a.mp4"]
    = Some (File true "MP4abcdefg") ∧
  fs r.2 !! ["work"; "input"; "video0"; "b.mp4"] = Some (File true "MP4xyz") ∧
  length (children (fs r.2) ["work"; "input"; "video0"]) = 2.
Proof. vm_compute. done. Qed.

(** * Further properties of the plugin *)

(** ** [config]: the source and destination blocks *)

(** X1: the source block never touches the file system or the current
    directory and always returns; it stores the source exactly when the path
    is an existing directory with at least one entry, and in every other
    case (missing, empty, not a directory) leaves the session as it was. *)
Theorem config_source_outcome (p : path) (w : world) :
  let r := config_source p w in
  r.1 = Ok tt ∧ fs r.2 = fs w ∧ cwd r.2 = cwd w ∧
  ctx r.2 = (if is_dir (fs w !! p) && negb (bool_decide (children (fs w) p = []))
             then <["source" := p]> (ctx w) else ctx w).
Proof.
  destruct (source_rejection (fs w) p) as [msg|] eqn:Er.
  - rewrite (config_source_rejected _ _ _ Er). simpl.
    split; [done|]. split; [done|]. split; [done|].
    unfold source_rejection in Er.
    destruct (fs w !! p) as [[|b d]|]; simpl; try done.
    case_decide as Hc; [|done]. by rewrite bool_decide_true.
  - unfold source_rejection in Er.
    destruct (fs w !! p) as [[|b d]|] eqn:E; try done.
    case_decide as Hc; [done|].
    unfold config_source, isdir_and_empty, path_exists, path_isdir,
      os_listdir, lift, bind, ret, echo, ctx_store.
    rewrite E. simpl. rewrite bool_decide_false by done. simpl.
    by rewrite E.
Qed.

(** X2: the destination block accepts an existing directory whether or not
    it is empty, without touching the file system; a missing path is created
    and stored when none of its components is a regular file, and otherwise
    the creation raises a not-a-directory error that names a missing
    directory on the way to the path, with nothing created or stored; a path
    that is a regular file is reported and not stored. *)
Theorem config_dest_outcome (p : path) (w : world) :
  let r := config_dest p w in
  match fs w !! p with
  | Some Dir =>
      r.1 = Ok tt ∧ fs r.2 = fs w ∧ ctx r.2 = <["dest" := p]> (ctx w)
  | Some (File _ _) =>
      r.1 = Ok tt ∧ fs r.2 = fs w ∧ ctx r.2 = ctx w ∧
      stdout r.2 = stdout w ++ [msg_dest_unknown p]
  | None =>
      if dir_capable (fs w) p
      then r.1 = Ok tt ∧ fs r.2 !! p = Some Dir ∧
           ctx r.2 = <["dest" := p]> (ctx w)
      else (∃ q, r.1 = Raise (NotADirectoryError q) ∧ q `prefix_of` p
                 ∧ fs w !! q = None) ∧
           fs r.2 = fs w ∧ ctx r.2 = ctx w
  end.
Proof.
  unfold config_dest, path_exists, path_isdir.
  destruct (fs w !! p) as [[|b d]|] eqn:E; simpl; try done.
  destruct (dir_capable (fs w) p) eqn:Hcap.
  - unfold os_makedirs, bind, echo, ctx_store. simpl. rewrite E, Hcap. simpl.
    split; [done|]. split; [|done].
    rewrite lookup_mkdirs, E, decide_True; [done|]. by apply elem_of_prefixes.
  - destruct (os_makedirs_blocked p false
                (set_stdout (stdout w ++ ["Creating destination directory: "
                                          +:+ show_path p]) w) E Hcap)
      as (q & Hmk & Hq & Hn).
    unfold bind, echo. cbv beta iota. rewrite Hmk. simpl in *.
    split; [by exists q|done].
Qed.

(** ** [config]: what it does to the file system *)

Lemma only_adds_dirs_ret {A} (a : A) : only_adds_dirs (ret a).
Proof. intros w. split; eauto. Qed.

Lemma only_adds_dirs_echo s : only_adds_dirs (echo s).
Proof. intros w. split; eauto. Qed.

Lemma only_adds_dirs_ctx_store k p : only_adds_dirs (ctx_store k p).
Proof. intros w. split; eauto. Qed.

Lemma only_adds_dirs_bind {A B} (m : M A) (k : A → M B) :
  only_adds_dirs m → (∀ a, only_adds_dirs (k a)) →
  only_adds_dirs (x <- m ;; k x).
Proof.
  intros Hm Hk w. unfold bind. destruct (Hm w) as [Hm1 Hm2].
  destruct (m w) as [[a|e] w1]; simpl in *; [|done].
  destruct (Hk a w1) as [Hk1 Hk2]. split.
  - intros q nd Hq. by apply Hk1, Hm1.
  - intros q nd Hq. destruct (Hk2 q nd Hq) as [Ho| ->]; [by apply Hm2|by right].
Qed.

Lemma only_adds_dirs_makedirs p b : only_adds_dirs (os_makedirs p b).
Proof.
  intros w. unfold os_makedirs.
  destruct (fs w !! p) as [[|r d]|] eqn:E; [destruct b| |]; simpl; eauto.
  destruct (dir_capable (fs w) p); simpl; [|eauto]. split.
  - intros q nd Hq. by rewrite lookup_mkdirs, Hq.
  - intros q nd. rewrite lookup_mkdirs. destruct (fs w !! q); [by left|].
    case_decide; [|done]. intros [= <-]. by right.
Qed.

Lemma only_adds_dirs_same {A} (m : M A) :
  (∀ w, fs (m w).2 = fs w) → only_adds_dirs m.
Proof. intros Hm w. rewrite Hm. split; eauto. Qed.

Lemma only_adds_dirs_config_working p : only_adds_dirs (config_working p).
Proof.
  intros w. unfold config_working.
  destruct (negb (path_exists (fs w) p)).
  - apply (only_adds_dirs_bind (echo _));
      [apply only_adds_dirs_echo|intros _].
    apply only_adds_dirs_bind;
      [apply only_adds_dirs_makedirs|intros _; apply only_adds_dirs_ctx_store].
  - apply only_adds_dirs_same. clear w. intros w.
    unfold isdir_and_empty, bind, os_listdir, lift, ret, echo, ctx_store,
      path_isdir.
    destruct (fs w !! p) as [[|r d]|] eqn:E; simpl; rewrite ?E; try done.
    case_bool_decide; [done|]. by rewrite E.
Qed.

Lemma only_adds_dirs_config_source p : only_adds_dirs (config_source p).
Proof.
  apply only_adds_dirs_same. intros w.
  unfold config_source, isdir_and_empty, bind, os_listdir, lift, ret, echo,
    ctx_store, path_exists, path_isdir.
  destruct (fs w !! p) as [[|r d]|] eqn:E; simpl; rewrite ?E; try done.
  case_bool_decide; [done|]. by rewrite E.
Qed.

Lemma only_adds_dirs_config_dest p : only_adds_dirs (config_dest p).
Proof.
  intros w. unfold config_dest.
  destruct (negb (path_exists (fs w) p)).
  - apply (only_adds_dirs_bind (echo _));
      [apply only_adds_dirs_echo|intros _].
    apply only_adds_dirs_bind;
      [apply only_adds_dirs_makedirs|intros _; apply only_adds_dirs_ctx_store].
  - destruct (path_isdir (fs w) p); split; eauto.
Qed.

Lemma only_adds_dirs_when_given o k :
  (∀ p, only_adds_dirs (k p)) → only_adds_dirs (when_given o k).
Proof. intros Hk. destruct o; [apply Hk|apply only_adds_dirs_ret]. Qed.

(** X3: whatever options it is given and whether it returns or raises,
    [config] deletes nothing and overwrites nothing: every entry of the file
    system is still there with the same content afterwards, and every entry
    that is new is a directory. *)
Theorem config_only_adds_directories
    (working source dest : option path) (w : world) :
  let r := config_default_locations working source dest w in
  (∀ q nd, fs w !! q = Some nd → fs r.2 !! q = Some nd) ∧
  (∀ q nd, fs r.2 !! q = Some nd → fs w !! q = Some nd ∨ nd = Dir).
Proof.
  apply (only_adds_dirs_bind (when_given working config_working)).
  { apply only_adds_dirs_when_given, only_adds_dirs_config_working. }
  intros _. apply only_adds_dirs_bind.
  { apply only_adds_dirs_when_given, only_adds_dirs_config_source. }
  intros _. apply only_adds_dirs_when_given, only_adds_dirs_config_dest.
Qed.

(** ** [extract]: units on offer *)

Lemma count_units_le (l : list string) :
  count_videos l + (if bool_decide ("images" ∈ l) then 1 else 0) ≤ length l.
Proof.
  unfold count_videos. induction l as [|a l IH]; [done|].
  rewrite filter_cons. simpl.
  destruct (decide (a = "images")) as [->|Hne].
  - rewrite decide_False by done. rewrite bool_decide_true by left.
    pose proof (length_filter (λ d, String.prefix "video" d = true) l). lia.
  - assert (bool_decide ("images" ∈ a :: l) = bool_decide ("images" ∈ l)) as ->.
    { apply bool_decide_ext. rewrite elem_of_cons.
      split; [intros [E|E]; [by symmetry in E|done]|by right]. }
    destruct (decide (String.prefix "video" a = true)); cbn [length]; lia.
Qed.

Section Offer.
Context `{Libraries}.

Lemma turn_ok_room working i t av w i' t' av' w' :
  turn_ok working (i, t, av, w) (i', t', av', w') →
  t ≤ size av → t' ≤ size av'.
Proof.
  inversion 1 as [? ? ? ? choice w1 w2 Hp Hu]; subst. intros Ht.
  apply click_prompt_Choice in Hp as [Hc _].
  rewrite size_difference by (by apply singleton_subseteq_l).
  rewrite size_singleton. lia.
Qed.

Lemma turns_ok_room working s s' :
  rtc (turn_ok working) s s' →
  s.1.1.2 ≤ size s.1.2 → s'.1.1.2 ≤ size s'.1.2.
Proof.
  induction 1 as [|[[[i t] av] w] [[[i' t'] av'] w'] s3 H12 _ IH]; [done|].
  intros Ht. apply IH. simpl in *. by eapply turn_ok_room.
Qed.

(** X5: the number of sets that [extract] lets the caller ask for never
    exceeds the number of units on offer, so the loop cannot reach a turn at
    which nothing is left to choose: whenever earlier turns have completed
    and a turn is still to come, at least one unit is available. *)
Theorem extract_loop_always_offers_a_unit
    (working : path) (l5 : list string) (set_count : nat) (w0 : world)
    (i turns : nat) (available : gset string) (w : world) :
  NoDup l5 →
  set_count ≤ count_videos l5 + (if bool_decide ("images" ∈ l5) then 1 else 0) →
  rtc (turn_ok working) (0, set_count, list_to_set l5, w0)
                        (i, S turns, available, w) →
  ∃ unit, unit ∈ available.
Proof.
  intros Hnd Hcount Hrun.
  apply turns_ok_room in Hrun; simpl in *.
  - apply size_pos_elem_of. lia.
  - rewrite size_list_to_set by done. pose proof (count_units_le l5). lia.
Qed.

(** X6: when the working directory has an [input] directory that holds
    neither [images] nor any entry whose name starts with [video] (an empty
    [input] included), [extract] stops with the no-input-material usage
    error before it prompts or writes anything, whether or not [output]
    exists. *)
Theorem extract_no_input_material (working : path) (w : world) :
  ctx w !! "working" = Some working →
  fs w !! working = Some Dir →
  fs w !! (working ++ ["input"]) = Some Dir →
  (∀ n, n ∈ children (fs w) (working ++ ["input"]) →
        n ≠ "images" ∧ String.prefix "video" n = false) →
  extract w = (Raise (UsageError msg_no_input), w).
Proof.
  intros Ec Ew Ei Hn.
  unfold extract, ctx_get, bind, raise, os_listdir, lift. rewrite Ec, Ew.
  rewrite (bool_decide_true ("input" ∈ _))
    by (rewrite elem_of_children; eauto).
  simpl. rewrite Ei.
  assert (count_videos (children (fs w) (working ++ ["input"])) = 0) as ->.
  { unfold count_videos.
    destruct (filter _ _) as [|n l'] eqn:Ef; [done|]. exfalso.
    assert (n ∈ filter (λ d, String.prefix "video" d = true)
                  (children (fs w) (working ++ ["input"]))) as Hin
      by (rewrite Ef; left).
    apply list_elem_of_filter in Hin as [Hp Hin].
    destruct (Hn n Hin) as [_ Hf]. congruence. }
  rewrite bool_decide_false; [done|].
  intros Hin. by destruct (Hn _ Hin).
Qed.

End Offer.

(** X5, witness: two turns asked of the staged sample, the first taken by
    the photos. *)
Lemma extract_loop_always_offers_a_unit_witness :
  ∃ unit, unit ∈ ({[ "images"; "video0"; "video1" ]} ∖ {[ "images" ]}
                  : gset string).
Proof.
  pose (w := sample_world_staged [AnsText "images"]).
  apply (@extract_loop_always_offers_a_unit sample_libs ["work"]
           ["images"; "video0"; "video1"] 2 w 1 0 _
           (@extract_unit sample_libs ["work"] 0 "images"
              (sample_world_staged [])).2).
  - apply (bool_decide_unpack _). vm_compute. exact I.
  - vm_compute. lia.
  - eapply rtc_l; [|apply rtc_refl].
    replace (list_to_set ["images"; "video0"; "video1"] : gset string)
      with ({[ "images"; "video0"; "video1" ]} : gset string)
      by (vm_compute; reflexivity).
    apply (TurnOk ["work"] 0 1 _ w "images" (sample_world_staged [])).
    + vm_compute; reflexivity.
    + vm_compute; reflexivity.
Defined.

(** X6, witness: a working directory whose [input] is empty. *)
Lemma extract_no_input_material_witness :
  let w := World (<[["work"; "input"] := Dir]> sample_fs) ["home"]
                 {[ "working" := ["work"] ]} [] [] in
  @extract sample_libs w = (Raise (UsageError msg_no_input), w).
Proof.
  apply (@extract_no_input_material sample_libs ["work"]).
  - reflexivity.
  - vm_compute; reflexivity.
  - vm_compute; reflexivity.
  - intros n Hn. vm_compute in Hn. by apply elem_of_nil in Hn.
Defined.

(** ** [extract_video]: degenerate strides *)

Lemma mod_opp_zero (c n : Z) : (c `mod` (- n) = 0 ↔ c `mod` n = 0)%Z.
Proof.
  destruct (decide (n = 0)%Z) as [->|Hn]; [done|].
  split; intros Hm.
  - rewrite <- (Z.opp_involutive n). apply Z.mod_opp_r_z; [lia|done].
  - apply Z.mod_opp_r_z; [done|done].
Qed.

Section Strides.
Context `{Libraries}.

(** X7: a negative stride samples exactly like its absolute value: the
    test [frame_count % n] is zero for the same frames, so the run with
    [-n] returns the same outcome and leaves the same files as the run with
    [n], from any counters. *)
Theorem extract_video_negative_stride
    (v : list string) (output : path) (n : Z) (i c : nat) (w : world) :
  extract_video_loop v output (- n) i c w = extract_video_loop v output n i c w.
Proof.
  revert i c w. induction v as [|frame v IH]; intros i c w; [done|].
  cbn [extract_video_loop].
  destruct (decide (n = 0)%Z) as [->|Hn]; [done|].
  rewrite decide_False by lia.
  destruct (decide ((Z.of_nat c `mod` n)%Z = 0%Z)) as [Hz|Hz].
  - rewrite decide_True by (by apply mod_opp_zero).
    unfold bind. destruct (cv2_imwrite _ frame w) as [[[]|e] w1]; [|done].
    apply IH.
  - rewrite decide_False by (by rewrite mod_opp_zero). apply IH.
Qed.

End Strides.

(** ** [extract]: what one unit produces *)

(** A loop whose every turn keeps an invariant of the file system and
    establishes a fact about its element that later turns do not undo. *)
Lemma for_each_inv {A} (body : A → M unit) (I : filesystem → Prop)
    (Q : A → filesystem → Prop) (l : list A) :
  (∀ a w w', a ∈ l → I (fs w) → body a w = (Ok tt, w') →
     I (fs w') ∧ Q a (fs w')) →
  (∀ a b w w', b ∈ l → I (fs w) → Q a (fs w) → body b w = (Ok tt, w') →
     Q a (fs w')) →
  ∀ w w', I (fs w) → for_each body l w = (Ok tt, w') →
  I (fs w') ∧ (∀ a, a ∈ l → Q a (fs w')) ∧ (∀ a, Q a (fs w) → Q a (fs w')).
Proof.
  intros Hstep Hstable. induction l as [|a l IH]; intros w w' Hi; simpl.
  - intros [= <-]. split; [done|]. split; [|done].
    intros a Ha. by apply elem_of_nil in Ha.
  - intros ([] & w1 & E1 & E2)%bind_Ok.
    destruct (Hstep a w w1 ltac:(left) Hi E1) as (Hi1 & Hq1).
    destruct (IH ltac:(intros; eapply Hstep; eauto; by right)
                 ltac:(intros; eapply Hstable; eauto; by right) w1 w' Hi1 E2)
      as (Hi2 & Hq2 & Hst2).
    split; [done|]. split.
    + intros b [->|Hb]%elem_of_cons; [by apply Hst2|by apply Hq2].
    + intros x Hx. apply Hst2. apply (Hstable x a w w1); [left|done..].
Qed.

Lemma os_makedirs_elsewhere (p : path) (w w' : world) (q : path) :
  os_makedirs p true w = (Ok tt, w') → ¬ q `prefix_of` p →
  fs w' !! q = fs w !! q.
Proof.
  intros (f & -> & _ & Hold & Hnew)%os_makedirs_inv Hq. simpl.
  destruct (f !! q) as [nd|] eqn:Ef.
  - destruct (Hnew _ _ Ef) as [Ho|[_ Hp]]; [done|by destruct Hq].
  - destruct (fs w !! q) as [nd|] eqn:Eo; [|done].
    by rewrite (Hold _ _ Eo) in Ef.
Qed.

Lemma not_prefix_longer (p : path) (n : string) : ¬ (p ++ [n]) `prefix_of` p.
Proof.
  intros Hp%prefix_length. rewrite length_app in Hp. simpl in Hp. lia.
Qed.

Lemma input_not_prefix_of_output (working r : path) (s : string) :
  ¬ (working ++ "input" :: r) `prefix_of` (working ++ ["output"; s]).
Proof.
  intros Hp. apply prefix_app_inv in Hp. by apply prefix_cons_inv_1 in Hp.
Qed.

Lemma children_same (f f' : filesystem) (p : path) :
  (∀ n, f' !! (p ++ [n]) = f !! (p ++ [n])) →
  children f' p ≡ₚ children f p.
Proof.
  intros Hsame. apply NoDup_Permutation; [apply NoDup_children..|].
  intros n. by rewrite !elem_of_children, Hsame.
Qed.

Lemma shutil_copy_Ok (src dst : path) (w w' : world) :
  path_isdir (fs w) dst = false →
  shutil_copy src dst w = (Ok tt, w') →
  ∃ d, fs w !! src = Some (File true d)
       ∧ w' = set_fs (<[dst := File true d]> (fs w)) w.
Proof.
  intros Hnd. unfold shutil_copy. cbn zeta. rewrite Hnd. cbn iota.
  rewrite Hnd. case_decide; [done|].
  destruct (fs w !! src) as [[|[] d]|]; try done.
  destruct (path_isdir (fs w) (parent dst)); [|done].
  intros [= <-]. eauto.
Qed.

Section Units.
Context `{Libraries}.

(** X8: choosing the [images] unit for a set directory that has no entry yet
    copies every entry of [input/images] into [output/set{i}] under the same
    name and with the same bytes, puts nothing else there, and leaves
    everything below [input] exactly as it was. *)
Theorem extract_unit_images_copies (working : path) (i : nat) (w w' : world) :
  (∀ n, fs w !! (working ++ ["output"; unit_set i; n]) = None) →
  extract_unit working i "images" w = (Ok tt, w') →
  (∀ img, img ∈ children (fs w) (working ++ ["input"; "images"]) →
     ∃ d, fs w !! (working ++ ["input"; "images"; img]) = Some (File true d) ∧
          fs w' !! (working ++ ["output"; unit_set i; img])
          = Some (File true d)) ∧
  children (fs w') (working ++ ["output"; unit_set i])
    ≡ₚ children (fs w) (working ++ ["input"; "images"]) ∧
  (∀ r, fs w' !! (working ++ "input" :: r) = fs w !! (working ++ "input" :: r)).
Proof.
  intros Hfresh. unfold extract_unit.
  intros ([] & w1 & Emk & E)%bind_Ok.
  rewrite decide_True in E by done.
  apply bind_Ok in E as (imgs & w1' & Els & Eloop).
  set (set_i := working ++ ["output"; unit_set i]) in *.
  set (images := working ++ ["input"; "images"]) in *.
  assert (∀ r, fs w1 !! (working ++ "input" :: r)
               = fs w !! (working ++ "input" :: r)) as Hin1.
  { intros r. eapply os_makedirs_elsewhere; [done|].
    apply input_not_prefix_of_output. }
  assert (∀ n, fs w1 !! (set_i ++ [n]) = None) as Hfresh1.
  { intros n. rewrite (os_makedirs_elsewhere _ _ _ _ Emk)
      by apply not_prefix_longer.
    unfold set_i. rewrite <- app_assoc. apply Hfresh. }
  assert (fs w1 !! set_i = Some Dir) as Hset1.
  { by apply os_makedirs_inv in Emk as (f & -> & ? & _). }
  assert (w1' = w1 ∧ imgs = children (fs w1) images) as [-> ->].
  { unfold os_listdir, lift in Els.
    destruct (fs w1 !! images) as [[|b d]|]; by simplify_eq. }
  assert (∀ n, n ∈ children (fs w1) images ↔ n ∈ children (fs w) images)
    as Himgs.
  { intros n. rewrite !elem_of_children. unfold images.
    rewrite <- !app_assoc. simpl. by rewrite Hin1. }
  apply (for_each_inv _
    (λ f, (∀ r, f !! (working ++ "input" :: r)
                = fs w1 !! (working ++ "input" :: r))
          ∧ (∀ n, f !! (set_i ++ [n]) = None
                  ∨ (n ∈ children (fs w1) images
                     ∧ is_file (f !! (set_i ++ [n])) = true)))
    (λ img f, ∃ d, fs w1 !! (images ++ [img]) = Some (File true d)
                   ∧ f !! (set_i ++ [img]) = Some (File true d)))
    in Eloop as ((Hin' & Hset') & Hq & _).
  - split; [|split].
    + intros img Himg%Himgs. destruct (Hq img Himg) as (d & Hsrc & Hdst).
      exists d. unfold images, set_i in *.
      rewrite <- !app_assoc in *. simpl in *.
      by rewrite <- Hin1.
    + apply NoDup_Permutation; [apply NoDup_children..|].
      intros n. rewrite <- Himgs, elem_of_children. split.
      * intros [nd Hnd]. destruct (Hset' n) as [Hn|[Hn _]]; [|done].
        by rewrite Hn in Hnd.
      * intros Hn. destruct (Hq n Hn) as (d & _ & ->). eauto.
    + intros r. by rewrite Hin', Hin1.
  - intros img u u' Himg [Hi1 Hi2] Ecp.
    assert (working ++ ["output"; unit_set i; img] = set_i ++ [img]) as Edst.
    { unfold set_i. by rewrite <- app_assoc. }
    rewrite Edst in Ecp.
    apply shutil_copy_Ok in Ecp as (d & Esrc & ->).
    2:{ unfold path_isdir. destruct (Hi2 img) as [->|[_ Hf]]; [done|].
        by destruct (fs u !! (set_i ++ [img])) as [[|b' d']|]. }
    change (working ++ ["input"; "images"; img])
      with (working ++ "input" :: ["images"; img]) in Esrc.
    rewrite Hi1 in Esrc. simpl. split; [split|].
    + intros r. rewrite lookup_insert_ne; [apply Hi1|].
      unfold set_i. rewrite <- app_assoc. intros E%app_inv_head. done.
    + intros n. destruct (decide (n = img)) as [->|Hne].
      * right. split; [done|]. by rewrite lookup_insert_eq.
      * rewrite lookup_insert_ne; [apply Hi2|].
        intros E%app_inv_head. by injection E as ->.
    + exists d. split; [|by rewrite lookup_insert_eq].
      unfold images. rewrite <- app_assoc. done.
  - intros img b u u' Hb [Hi1 Hi2] (d & Hsrc & Hdst) Ecp.
    assert (working ++ ["output"; unit_set i; b] = set_i ++ [b]) as Edst.
    { unfold set_i. by rewrite <- app_assoc. }
    rewrite Edst in Ecp.
    apply shutil_copy_Ok in Ecp as (d' & Esrc & ->).
    2:{ unfold path_isdir. destruct (Hi2 b) as [->|[_ Hf]]; [done|].
        by destruct (fs u !! (set_i ++ [b])) as [[|b' d'']|]. }
    change (working ++ ["input"; "images"; b])
      with (working ++ "input" :: ["images"; b]) in Esrc.
    rewrite Hi1 in Esrc. simpl. exists d. split; [done|].
    destruct (decide (b = img)) as [->|Hne].
    + rewrite lookup_insert_eq. unfold images in Hsrc.
      rewrite <- app_assoc in Hsrc. simpl in Hsrc. congruence.
    + rewrite lookup_insert_ne; [done|].
      intros E%app_inv_head. by injection E as ->.
  - split; [done|]. intros n. left. apply Hfresh1.
Qed.

(** X9: choosing a video unit that holds exactly one readable file, for a
    set directory that has no entry yet and can be created, decodes that
    file and samples it at the fixed stride 30: the turn returns normally,
    [output/set{i}] receives exactly [ceil(F/30)] files for the [F] frames of
    the video, file number [j] holding frame [30*j], and everything below
    [input] is left as it was. *)
Theorem extract_unit_video_samples
    (working : path) (i : nat) (choice v0 d : string) (w : world) :
  choice ≠ "images" → String.prefix "video" choice = true →
  fs w !! (working ++ ["input"; choice]) = Some Dir →
  children (fs w) (working ++ ["input"; choice]) = [v0] →
  fs w !! (working ++ ["input"; choice; v0]) = Some (File true d) →
  dir_capable (fs w) (working ++ ["output"; unit_set i]) = true →
  (∀ n, fs w !! (working ++ ["output"; unit_set i; n]) = None) →
  let r := extract_unit working i choice w in
  let k := (length (decode d) + 30 - 1) `div` 30 in
  r.1 = Ok tt ∧
  (∀ j, j < k →
     ∃ fr, decode d !! (j * 30) = Some fr ∧
           fs r.2 !! (working ++ ["output"; unit_set i; frame_fname j])
           = Some (File true (imencode fr))) ∧
  children (fs r.2) (working ++ ["output"; unit_set i])
    ≡ₚ frame_fname <$> seq 0 k ∧
  (∀ q, fs r.2 !! (working ++ "input" :: q) = fs w !! (working ++ "input" :: q)).
Proof.
  intros Hni Hv Hdir Hone Hfile Hcap Hfresh r k. subst r.
  set (set_i := working ++ ["output"; unit_set i]) in *.
  destruct (os_makedirs_Ok set_i w Hcap)
    as (w1 & Emk & [f1 ->] & Hset1 & Hkeep & Hnew).
  simpl in Hset1, Hkeep, Hnew.
  assert (∀ q, f1 !! (working ++ "input" :: q)
               = fs w !! (working ++ "input" :: q)) as Hin1.
  { intros q. apply Hnew, input_not_prefix_of_output. }
  assert (∀ n, f1 !! (set_i ++ [n]) = None) as Hfresh1.
  { intros n. rewrite Hnew by apply not_prefix_longer.
    unfold set_i. rewrite <- app_assoc. apply Hfresh. }
  assert (children f1 (working ++ ["input"; choice]) = [v0]) as Hone1.
  { apply singleton_list; [apply NoDup_children|]. intros x.
    rewrite elem_of_children, <- app_assoc. simpl.
    rewrite (Hin1 [choice; x]).
    change (working ++ ["input"; choice; x])
      with (working ++ ["input"; choice] ++ [x]).
    rewrite app_assoc, <- elem_of_children, Hone.
    apply list_elem_of_singleton. }
  destruct (extract_video_loop_spec set_i 30 (decode d) ltac:(lia) 0 0
              (set_fs f1 w) Hset1) as (f' & Ef & Hb & Hc).
  { intros m. simpl. by rewrite Hfresh1. }
  { lia. }
  { lia. }
  assert (extract_unit working i choice w = (Ok tt, set_fs f' w)) as ->.
  { unfold extract_unit. unfold bind at 1. fold set_i. rewrite Emk.
    rewrite decide_False by done. rewrite Hv.
    unfold bind, os_listdir, cv2_VideoCapture, lift.
    change (fs (set_fs f1 w)) with f1.
    rewrite (Hin1 [choice]), Hdir, Hone1.
    change (fs (set_fs f1 w)) with f1.
    rewrite (Hin1 [choice; v0]), Hfile.
    unfold extract_video. change 30%Z with (Z.of_nat 30). by rewrite Ef. }
  change (fs (set_fs f1 w)) with f1 in Hc.
  cbn [fst snd]. change (fs (set_fs f' w)) with f'.
  assert (∀ j, j < k →
     ∃ fr, decode d !! (j * 30) = Some fr ∧
           f' !! (set_i ++ [frame_fname j]) = Some (File true (imencode fr)))
    as Hfiles.
  { intros j Hj. apply ceil_div_lt in Hj; [|lia].
    destruct (lookup_lt_is_Some_2 (decode d) (j * 30) Hj) as [fr Hfr].
    exists fr. split; [done|]. apply Hb; [lia|]. by rewrite Nat.sub_0_r. }
  assert (∀ q, (∀ j, j < k → q ≠ set_i ++ [frame_fname j]) →
               f' !! q = f1 !! q) as Hrest.
  { intros q Hq. apply Hc. intros j _ Hj. apply Hq.
    rewrite Nat.sub_0_r in Hj. apply ceil_div_lt; [lia|done]. }
  split; [done|]. split; [|split].
  - intros j Hj. destruct (Hfiles j Hj) as (fr & Hfr & Hf).
    exists fr. split; [done|]. unfold set_i in Hf.
    by rewrite <- app_assoc in Hf.
  - apply NoDup_Permutation; [apply NoDup_children| |].
    { apply NoDup_fmap_2; [|apply NoDup_seq]. intros a b. apply frame_fname_inj. }
    intros x. rewrite elem_of_children. split.
    + intros Hx.
      destruct (decide (x ∈ frame_fname <$> seq 0 k)) as [|Hnin]; [done|].
      rewrite Hrest in Hx; [by rewrite Hfresh1 in Hx; destruct Hx|].
      intros j Hj E. apply Hnin. apply app_inv_head in E. injection E as ->.
      apply list_elem_of_fmap. exists j. split; [done|].
      apply elem_of_seq. lia.
    + intros (j & -> & Hj)%list_elem_of_fmap. apply elem_of_seq in Hj.
      destruct (Hfiles j ltac:(lia)) as (fr & _ & ->). eauto.
  - intros q. rewrite Hrest; [apply Hin1|].
    intros j _ E. unfold set_i in E. rewrite <- app_assoc in E.
    by apply app_inv_head in E.
Qed.

End Units.

Lemma sample_fs_staged_set_fresh (s n : string) :
  sample_fs_staged !! (["work"] ++ ["output"; s; n]) = None.
Proof.
  destruct (sample_fs_staged !! (["work"] ++ ["output"; s; n])) as [nd|] eqn:E;
    [|done].
  exfalso. unfold sample_fs_staged in E. apply elem_of_list_to_map_2 in E.
  simpl in E.
  repeat (apply elem_of_cons in E as [E|E]; [by simplify_eq|]).
  by apply elem_of_nil in E.
Qed.

(** X8, witness: the photos of the staged sample go to the first set. *)
Lemma extract_unit_images_copies_witness :
  let w := sample_world_staged [] in
  let w' := (@extract_unit sample_libs ["work"] 0 "images" w).2 in
  (∀ img, img ∈ children (fs w) (["work"] ++ ["input"; "images"]) →
     ∃ d, fs w !! (["work"] ++ ["input"; "images"; img]) = Some (File true d) ∧
          fs w' !! (["work"] ++ ["output"; unit_set 0; img])
          = Some (File true d)) ∧
  children (fs w') (["work"] ++ ["output"; unit_set 0])
    ≡ₚ children (fs w) (["work"] ++ ["input"; "images"]) ∧
  (∀ r, fs w' !! (["work"] ++ "input" :: r)
        = fs w !! (["work"] ++ "input" :: r)).
Proof.
  apply (@extract_unit_images_copies sample_libs ["work"] 0
           (sample_world_staged [])).
  - intros n. apply sample_fs_staged_set_fresh.
  - vm_compute; reflexivity.
Defined.

(** X9, witness: the video of the staged sample, seven frames long. *)
Lemma extract_unit_video_samples_witness :
  let w := sample_world_staged [] in
  let r := @extract_unit sample_libs ["work"] 0 "video0" w in
  let k := (length (@decode sample_libs "MP4abcdefg") + 30 - 1) `div` 30 in
  r.1 = Ok tt ∧
  (∀ j, j < k →
     ∃ fr, @decode sample_libs "MP4abcdefg" !! (j * 30) = Some fr ∧
           fs r.2 !! (["work"] ++ ["output"; unit_set 0; frame_fname j])
           = Some (File true (@imencode sample_libs fr))) ∧
  children (fs r.2) (["work"] ++ ["output"; unit_set 0])
    ≡ₚ frame_fname <$> seq 0 k ∧
  (∀ q, fs r.2 !! (["work"] ++ "input" :: q)
        = fs w !! (["work"] ++ "input" :: q)).
Proof.
  apply (@extract_unit_video_samples sample_libs ["work"] 0 "video0" "a.mp4"
           "MP4abcdefg" (sample_world_staged [])).
  - discriminate.
  - reflexivity.
  - vm_compute; reflexivity.
  - vm_compute; reflexivity.
  - vm_compute; reflexivity.
  - vm_compute; reflexivity.
  - intros n. apply sample_fs_staged_set_fresh.
Defined.

(** ** [setup]: what the staged files contain *)

Lemma for_each_fmap {A B} (g : B → M unit) (h : A → B) (l : list A) :
  for_each (λ a, g (h a)) l = for_each g (h <$> l).
Proof. induction l as [|a l IH]; simpl; [done|]. by rewrite IH. Qed.

Lemma only_adds_dirs_for_each {A} (body : A → M unit) (l : list A) :
  (∀ a, only_adds_dirs (body a)) → only_adds_dirs (for_each body l).
Proof.
  intros Hb. induction l as [|a l IH]; simpl.
  - apply only_adds_dirs_ret.
  - apply only_adds_dirs_bind; auto.
Qed.

Lemma only_adds_dirs_materialize working sel_images sel_videos :
  only_adds_dirs (materialize working sel_images sel_videos).
Proof.
  unfold materialize. apply only_adds_dirs_bind.
  { case_bool_decide; [apply only_adds_dirs_ret|apply only_adds_dirs_makedirs]. }
  intros _. apply only_adds_dirs_bind.
  { apply only_adds_dirs_for_each. intros i. apply only_adds_dirs_makedirs. }
  intros _. apply only_adds_dirs_makedirs.
Qed.

Section Content.
Context (working source : path) (sel_images sel_videos : list string).
Context (move : bool).
Hypothesis Hns : ∀ r', r' ≠ [] → source ≠ working ++ r'.

Lemma staged_not_in_source (s x y : string) :
  working ++ ["input"; s; x] ≠ source ++ [y].
Proof.
  change ["input"; s; x] with (["input"; s] ++ [x]). rewrite app_assoc.
  intros [E _]%app_inj_tail. by apply (Hns ["input"; s]).
Qed.

Lemma transfer_step_eq (s x : string) (w w' : world) :
  staged_shape working sel_images sel_videos (fs w) →
  file_slot sel_videos ["input"; s; x] →
  (if move then shutil_move else shutil_copy)
    (source ++ [x]) (working ++ ["input"; s; x]) w = (Ok tt, w') →
  ∃ b d, fs w !! (source ++ [x]) = Some (File b d) ∧
         fs w' = <[working ++ ["input"; s; x] := File b d]>
                   (if move then delete (source ++ [x]) (fs w) else fs w).
Proof.
  intros Hs Hf.
  pose proof (shape_not_dir working sel_images sel_videos _ _ Hs Hf) as Hnd.
  destruct move.
  - unfold shutil_move. cbn zeta. rewrite !Hnd. simpl.
    destruct (fs w !! (source ++ [x])) as [[|b d]|]; try done.
    case_decide as Hsame.
    { symmetry in Hsame. by apply staged_not_in_source in Hsame. }
    destruct (path_isdir (fs w) (parent (working ++ ["input"; s; x])));
      [|done].
    intros [= <-]. eauto.
  - intros (d & Esrc & ->)%shutil_copy_Ok; [|done]. eauto.
Qed.

Context (f0 : filesystem).

Lemma transfer_loop (l : list (string * string)) (w w' : world) :
  (∀ t, t ∈ l → file_slot sel_videos ["input"; t.1; t.2]
                ∧ t.2 ∈ sel_images ++ sel_videos) →
  kept move source working sel_images sel_videos f0 (fs w) →
  for_each (λ t, (if move then shutil_move else shutil_copy)
                   (source ++ [t.2]) (working ++ ["input"; t.1; t.2])) l w
    = (Ok tt, w') →
  kept move source working sel_images sel_videos f0 (fs w') ∧ (∀ t, t ∈ l → placed move source working f0 t (fs w'))
  ∧ (∀ t, placed move source working f0 t (fs w) → placed move source working f0 t (fs w')).
Proof.
  intros Hl. apply for_each_inv.
  - intros [s x] u u' [Hslot Hsel]%Hl [Hs Hk] Eu. simpl in *.
    destruct (transfer_step_eq s x u u' Hs Hslot Eu) as (b & d & Esrc & ->).
    assert (f0 !! (source ++ [x]) = Some (File b d)) as E0.
    { destruct (Hk x) as [<-|(_ & E & _)]; [done|congruence]. }
    split; [split|].
    + apply shape_insert_file; [|done]. destruct move; [|done].
      by apply shape_delete.
    + intros y. rewrite lookup_insert_ne by apply staged_not_in_source.
      destruct move; [|apply Hk].
      destruct (decide (y = x)) as [->|Hne].
      * right. by rewrite lookup_delete_eq.
      * rewrite lookup_delete_ne; [apply Hk|]. by intros [_ [= ?]]%app_inj_tail.
    + exists b, d. simpl. split; [done|]. split; [by rewrite lookup_insert_eq|].
      intros ->. rewrite lookup_insert_ne by apply staged_not_in_source.
      by rewrite lookup_delete_eq.
  - intros [s x] [s' x'] u u' [Hslot Hsel]%Hl [Hs Hk] (b & d & E0 & Ed & Em) Eu.
    simpl in *.
    destruct (transfer_step_eq s' x' u u' Hs Hslot Eu) as (b' & d' & Esrc & ->).
    exists b, d. simpl. split; [done|]. split.
    + destruct (decide (working ++ ["input"; s; x]
                        = working ++ ["input"; s'; x'])) as [E|Hne].
      * rewrite E, lookup_insert_eq. apply app_inv_head in E.
        injection E as -> ->. destruct (Hk x') as [Ek|(Hm & _)].
        -- congruence.
        -- rewrite (Em Hm) in Esrc. done.
      * rewrite lookup_insert_ne by done. destruct move; [|done].
        rewrite lookup_delete_ne; [done|]. apply not_eq_sym, staged_not_in_source.
    + intros Hm. rewrite lookup_insert_ne by apply staged_not_in_source.
      rewrite Hm. apply lookup_delete_None. right. by apply Em.
Qed.

Lemma transfer_content (w w' : world) :
  fs w = f0 →
  staged_shape working sel_images sel_videos f0 →
  transfer move source working sel_images sel_videos w = (Ok tt, w') →
  (∀ img, img ∈ sel_images → placed move source working f0 ("images", img) (fs w'))
  ∧ (∀ i vid, sel_videos !! i = Some vid → placed move source working f0 (unit_video i, vid) (fs w'))
  ∧ (∀ y, fs w' !! (source ++ [y]) = f0 !! (source ++ [y])
          ∨ (move = true ∧ fs w' !! (source ++ [y]) = None
             ∧ y ∈ sel_images ++ sel_videos)).
Proof.
  intros Hw Hs. unfold transfer. cbn zeta.
  intros ([] & w1 & E1 & E)%bind_Ok.
  apply bind_Ok in E as ([] & w2 & E2 & E).
  apply bind_Ok in E as ([] & w3 & E3 & E4).
  injection E2 as <-. injection E4 as <-.
  rewrite (for_each_fmap
             (λ t, (if move then shutil_move else shutil_copy)
                     (source ++ [t.2]) (working ++ ["input"; t.1; t.2]))
             (λ img, ("images", img))) in E1.
  rewrite (for_each_fmap
             (λ t, (if move then shutil_move else shutil_copy)
                     (source ++ [t.2]) (working ++ ["input"; t.1; t.2]))
             (λ iv : nat * string, (unit_video iv.1, iv.2))) in E3.
  apply transfer_loop in E1 as (Hk1 & Hp1 & _).
  2:{ intros t (img & -> & Himg)%list_elem_of_fmap. simpl. split.
      - left. by exists img.
      - apply elem_of_app. by left. }
  2:{ split; [by rewrite Hw|]. intros y. left. by rewrite Hw. }
  apply transfer_loop in E3 as ((_ & Hk3) & Hp3 & Hst3).
  2:{ intros t ([i vid] & -> & Hiv%elem_of_enumerate)%list_elem_of_fmap.
      simpl. split.
      - right. by exists i, vid.
      - apply elem_of_app. right. by eapply list_elem_of_lookup_2. }
  2:{ done. }
  simpl. split; [|split; [|done]].
  - intros img Himg. apply Hst3, Hp1, list_elem_of_fmap. by exists img.
  - intros i vid Hiv. apply Hp3, list_elem_of_fmap. exists (i, vid).
    split; [done|]. by apply elem_of_enumerate.
Qed.

End Content.

Section Staged.
Context `{Libraries}.

(** X10: when the caller answers with file names only (a pattern over the
    names in the source directory, videos by their names there), a staging
    run that starts from an empty working directory and completes has put
    every selected image at [input/images/<name>] and the video named at
    position [i] at [input/video{i}/<name>], each with the bytes and the
    permission the file of that name had in the source directory.  Of the
    entries the source directory had, copy mode changes none; move mode
    removes exactly the selected ones. *)
Theorem stage_content (move : bool) (source working : path) (w w' : world) :
  plain_answers (stdin w) = true →
  empty_dir (fs w) working →
  stage move source working w = (Ok tt, w') →
  ∃ sel_images sel_videos w1,
    select source (set_cwd source w) = (Ok (sel_images, sel_videos), w1) ∧
    (∀ img, img ∈ sel_images →
       ∃ b d, fs w !! (source ++ [img]) = Some (File b d) ∧
              fs w' !! (working ++ ["input"; "images"; img])
              = Some (File b d)) ∧
    (∀ i vid, sel_videos !! i = Some vid →
       ∃ b d, fs w !! (source ++ [vid]) = Some (File b d) ∧
              fs w' !! (working ++ ["input"; unit_video i; vid])
              = Some (File b d)) ∧
    (∀ y nd, fs w !! (source ++ [y]) = Some nd →
       fs w' !! (source ++ [y])
       = if move && bool_decide (y ∈ sel_images ++ sel_videos)
         then None else Some nd).
Proof.
  intros _ Hempty. unfold stage.
  intros (curdir & w0 & E0 & E)%bind_Ok. injection E0 as <- <-.
  apply bind_Ok in E as ([] & w2 & E2 & E).
  apply os_chdir_Ok in E2 as [Hsrc ->].
  apply bind_Ok in E as ([sel_images sel_videos] & w3 & E3 & E).
  apply bind_Ok in E as ([] & w4 & E4 & E).
  apply os_chdir_Ok in E4 as [_ ->].
  apply bind_Ok in E as ([] & w5 & E5 & E).
  apply bind_Ok in E as ([] & w6 & E6 & E7).
  apply os_chdir_Ok in E7 as [_ ->].
  exists sel_images, sel_videos, w3. split; [done|].
  destruct (reads_only_select source (set_cwd source w)) as (Hfs & _).
  rewrite E3 in Hfs. simpl in *.
  assert (staged_shape working sel_images sel_videos (fs w3)) as Hs3.
  { rewrite Hfs. by apply shape_empty_dir. }
  assert (∀ r', r' ≠ [] → source ≠ working ++ r') as Hns.
  { intros r' Hr' ->. destruct Hempty as [_ He]. by rewrite He in Hsrc. }
  destruct (only_adds_dirs_materialize working sel_images sel_videos
              (set_cwd working w3)) as [Hold Hnew].
  rewrite E5 in Hold, Hnew. simpl in Hold, Hnew. rewrite Hfs in Hold, Hnew.
  apply materialize_spec in E5 as (Hs5 & _); [|done].
  apply (transfer_content working source sel_images sel_videos move Hns
           (fs w5)) in E6 as (Himg & Hvid & Hsrcs); [|done..].
  assert (∀ x b d, fs w5 !! (source ++ [x]) = Some (File b d) →
                   fs w !! (source ++ [x]) = Some (File b d)) as Hback.
  { intros x b d Hx. by destruct (Hnew _ _ Hx). }
  split; [|split].
  - intros img (b & d & E0 & Ed & _)%Himg. exists b, d. split; [|done].
    by apply Hback.
  - intros i vid (b & d & E0 & Ed & _)%Hvid. exists b, d. split; [|done].
    by apply Hback.
  - intros y nd Hy%Hold. destruct move; simpl.
    + case_bool_decide as Hsel.
      * apply elem_of_app in Hsel as [Hi|Hv].
        -- destruct (Himg _ Hi) as (? & ? & _ & _ & Hm). by apply Hm.
        -- apply list_elem_of_lookup in Hv as [i Hv].
           destruct (Hvid _ _ Hv) as (? & ? & _ & _ & Hm). by apply Hm.
      * destruct (Hsrcs y) as [->|(_ & _ & ?)]; done.
    + destruct (Hsrcs y) as [->|(? & _)]; done.
Qed.

End Staged.

(** X10, witness: moving all photos and the video [b.mp4]. *)
Lemma stage_content_witness :
  let w := sample_world_configured
             [AnsBool true; AnsText "*"; AnsInt 1; AnsText "b.mp4"] in
  let w' := (@stage sample_libs true ["sd"] ["work"] w).2 in
  ∃ sel_images sel_videos w1,
    @select sample_libs ["sd"] (set_cwd ["sd"] w)
    = (Ok (sel_images, sel_videos), w1) ∧
    (∀ img, img ∈ sel_images →
       ∃ b d, fs w !! (["sd"] ++ [img]) = Some (File b d) ∧
              fs w' !! (["work"] ++ ["input"; "images"; img])
              = Some (File b d)) ∧
    (∀ i vid, sel_videos !! i = Some vid →
       ∃ b d, fs w !! (["sd"] ++ [vid]) = Some (File b d) ∧
              fs w' !! (["work"] ++ ["input"; unit_video i; vid])
              = Some (File b d)) ∧
    (∀ y nd, fs w !! (["sd"] ++ [y]) = Some nd →
       fs w' !! (["sd"] ++ [y])
       = if true && bool_decide (y ∈ sel_images ++ sel_videos)
         then None else Some nd).
Proof.
  apply (@stage_content sample_libs true ["sd"] ["work"]).
  - reflexivity.
  - exact sample_fs_work_empty.
  - vm_compute; reflexivity.
Defined.

(** ** [setup] and then [extract]: the units on offer *)

Lemma string_prefix_app (s t : string) : String.prefix s (s +:+ t) = true.
Proof.
  induction s as [|a s IH]; [by destruct t|].
  change (String.prefix (String a s) (String a (s +:+ t)) = true). simpl.
  by destruct (Ascii.ascii_dec a a).
Qed.

Lemma count_videos_units (l : list string) (k : nat) :
  NoDup l →
  (∀ n, n ∈ l ↔ (n = "images" ∧ "images" ∈ l)
                ∨ ∃ i, i < k ∧ n = unit_video i) →
  count_videos l = k.
Proof.
  intros Hnd Hl. unfold count_videos.
  transitivity (length (unit_video <$> seq 0 k));
    [|by rewrite length_fmap, length_seq].
  apply Permutation_length, NoDup_Permutation.
  - by apply NoDup_filter.
  - apply NoDup_fmap; [intros ? ?; apply unit_video_inj|apply NoDup_seq].
  - intros n. rewrite list_elem_of_filter, list_elem_of_fmap. split.
    + intros [Hp [[-> _]|(i & Hi & ->)]%Hl]; [done|].
      exists i. split; [done|]. apply elem_of_seq. lia.
    + intros (i & -> & Hi%elem_of_seq). split; [apply string_prefix_app|].
      apply Hl. right. exists i. split; [lia|done].
Qed.

Section Units_offered.
Context `{Libraries}.

(** X11: when the caller answers with file names only, after a staging run
    that starts from an empty working directory and completes the entries of
    [input] are exactly [video0] ... [video{k-1}] for the [k] videos
    selected, and [images] when at least one image was selected; so the
    number of sets [extract] computes from that directory is [k], plus one
    when images were selected. *)
Theorem stage_units_on_offer (move : bool) (source working : path)
    (w w' : world) :
  plain_answers (stdin w) = true →
  empty_dir (fs w) working →
  stage move source working w = (Ok tt, w') →
  ∃ sel_images sel_videos w1,
    select source (set_cwd source w) = (Ok (sel_images, sel_videos), w1) ∧
    (∀ n, n ∈ children (fs w') (working ++ ["input"]) ↔
          (n = "images" ∧ sel_images ≠ [])
          ∨ ∃ i, i < length sel_videos ∧ n = unit_video i) ∧
    count_videos (children (fs w') (working ++ ["input"]))
    + (if bool_decide ("images" ∈ children (fs w') (working ++ ["input"]))
       then 1 else 0)
    = length sel_videos + (if bool_decide (sel_images = []) then 0 else 1).
Proof.
  intros _ Hempty. unfold stage.
  intros (curdir & w0 & E0 & E)%bind_Ok. injection E0 as <- <-.
  apply bind_Ok in E as ([] & w2 & E2 & E).
  apply os_chdir_Ok in E2 as [Hsrc ->].
  apply bind_Ok in E as ([sel_images sel_videos] & w3 & E3 & E).
  apply bind_Ok in E as ([] & w4 & E4 & E).
  apply os_chdir_Ok in E4 as [_ ->].
  apply bind_Ok in E as ([] & w5 & E5 & E).
  apply bind_Ok in E as ([] & w6 & E6 & E7).
  apply os_chdir_Ok in E7 as [_ ->].
  exists sel_images, sel_videos, w3. split; [done|].
  destruct (reads_only_select source (set_cwd source w)) as (Hfs & _).
  rewrite E3 in Hfs. simpl in *.
  assert (staged_shape working sel_images sel_videos (fs w3)) as Hs3.
  { rewrite Hfs. by apply shape_empty_dir. }
  assert (∀ r', r' ≠ [] → source ≠ working ++ r') as Hns.
  { intros r' Hr' ->. destruct Hempty as [_ He]. by rewrite He in Hsrc. }
  apply materialize_spec in E5 as (Hs5 & Hp5 & Hi5 & Hv5 & Ho5); [|done].
  apply (transfer_spec working source) in E6 as (Hs6 & Hp6 & Hf6); [|done..].
  assert (∀ n, n ∈ children (fs w6) (working ++ ["input"]) ↔
               (n = "images" ∧ sel_images ≠ [])
               ∨ ∃ i, i < length sel_videos ∧ n = unit_video i) as Hunits.
  { intros n. rewrite elem_of_children, <- app_assoc. simpl. split.
    - intros [nd Hnd]. apply Hs6 in Hnd. destruct nd as [|b d].
      + destruct Hnd as [E|[E|[E|[[E ?]|(i & ? & E)]]]];
          [discriminate E..| |].
        * left. split; [congruence|done].
        * right. exists i. split; [done|congruence].
      + destruct Hnd as [[? E]|(? & ? & _ & E)]; discriminate E.
    - intros [[-> Hi]|(i & Hi & ->)].
      + exists Dir. by apply Hp6, Hi5.
      + exists Dir. by apply Hp6, Hv5. }
  split; [done|].
  rewrite (count_videos_units _ (length sel_videos)).
  - f_equal. case_bool_decide as Hin; case_bool_decide as Hnil; try done.
    + apply Hunits in Hin as [[_ ?]|(i & _ & Hi)]; [done|].
      symmetry in Hi. by apply unit_video_not_images in Hi.
    + exfalso. apply Hin, Hunits. by left.
  - apply NoDup_children.
  - intros n. rewrite Hunits. split.
    + intros [[-> Hi]|Hv]; [|by right].
      left. split; [done|]. apply Hunits. by left.
    + intros [[-> Hi%Hunits]|Hv]; [|by right]. done.
Qed.

End Units_offered.

(** X11, witness: the photos and two videos are selected. *)
Lemma stage_units_on_offer_witness :
  let w := sample_world_configured
             [AnsBool true; AnsText "*"; AnsInt 2;
              AnsText "b.mp4"; AnsText "a.mp4"] in
  let w' := (@stage sample_libs false ["sd"] ["work"] w).2 in
  ∃ sel_images sel_videos w1,
    @select sample_libs ["sd"] (set_cwd ["sd"] w)
    = (Ok (sel_images, sel_videos), w1) ∧
    (∀ n, n ∈ children (fs w') (["work"] ++ ["input"]) ↔
          (n = "images" ∧ sel_images ≠ [])
          ∨ ∃ i, i < length sel_videos ∧ n = unit_video i) ∧
    count_videos (children (fs w') (["work"] ++ ["input"]))
    + (if bool_decide ("images" ∈ children (fs w') (["work"] ++ ["input"]))
       then 1 else 0)
    = length sel_videos + (if bool_decide (sel_images = []) then 0 else 1).
Proof.
  apply (@stage_units_on_offer sample_libs false ["sd"] ["work"]).
  - reflexivity.
  - exact sample_fs_work_empty.
  - vm_compute; reflexivity.
Defined.

(** ** [setup]: what the selection requires of the source directory *)

Section Selection.
Context `{Libraries}.

Lemma filter_m_istype_Ok (source : path) (t : string) (l l' : list string)
    (w w' : world) :
  filter_m (λ f, istype source f t) l w = (Ok l', w') →
  w' = w
  ∧ (∀ x, x ∈ l → ∃ d, fs w !! (source ++ [x]) = Some (File true d))
  ∧ l' `sublist_of` l
  ∧ (∀ x, x ∈ l' → ∃ d mime, fs w !! (source ++ [x]) = Some (File true d)
                             ∧ magic d = Some mime
                             ∧ String.prefix t mime = true).
Proof.
  revert l'. induction l as [|a l IH]; intros l'; simpl.
  - intros [= <- <-]. split; [done|]. split; [|split; [done|]].
    + intros x Hx. by apply elem_of_nil in Hx.
    + intros x Hx. by apply elem_of_nil in Hx.
  - intros (b & w1 & E1 & E)%bind_Ok.
    apply bind_Ok in E as (r & w2 & E2 & E3). injection E3 as <- <-.
    rewrite istype_eq in E1.
    destruct (fs w !! (source ++ [a])) as [[|[] d]|] eqn:Ea; try done.
    injection E1 as <- <-.
    destruct (IH _ E2) as (-> & Hall & Hsub & Hsel).
    split; [done|]. split; [|split].
    + intros x [->|Hx]%elem_of_cons; eauto.
    + destruct (magic d) as [mime|]; [destruct (String.prefix t mime)|];
        by constructor.
    + intros x Hx. destruct (magic d) as [mime|] eqn:Em;
        [destruct (String.prefix t mime) eqn:Ep|]; try by apply Hsel.
      apply elem_of_cons in Hx as [->|Hx]; [|by apply Hsel].
      by exists d, mime.
Qed.

Lemma filter_m_istype_Raise (source : path) (t : string) (l : list string)
    (n : string) (w : world) :
  n ∈ l → (∀ d, fs w !! (source ++ [n]) ≠ Some (File true d)) →
  ∃ e, filter_m (λ f, istype source f t) l w = (Raise e, w).
Proof.
  intros Hn Hbad. induction l as [|a l IH]; [by apply elem_of_nil in Hn|].
  simpl. unfold bind at 1. rewrite istype_eq.
  destruct (fs w !! (source ++ [a])) as [[|[] d]|] eqn:Ea; eauto.
  apply elem_of_cons in Hn as [->|Hn]; [by destruct (Hbad d)|].
  destruct (IH Hn) as [e He]. exists e. unfold bind. by rewrite He.
Qed.

(** X12: when the source directory has an entry that is not a regular file
    the process may read (a subdirectory, an unreadable file), [setup]'s
    selection raises while it classifies the listing: nothing has been asked
    or echoed by then, and the session is left exactly as it was. *)
Theorem select_needs_plain_source (source : path) (n : string) (w : world) :
  fs w !! source = Some Dir →
  n ∈ children (fs w) source →
  (∀ d, fs w !! (source ++ [n]) ≠ Some (File true d)) →
  ∃ e, select source w = (Raise e, w).
Proof.
  intros Hs Hn Hbad. unfold select, os_listdir, lift, bind at 1. rewrite Hs.
  destruct (filter_m_istype_Raise source "image" _ n w Hn Hbad) as [e He].
  exists e. unfold bind at 1. by rewrite He.
Qed.

(** X13: when the caller answers with a pattern over file names, the images
    [setup] selects are entries of the source directory, each named once,
    and each is a readable file whose content the classifier takes for an
    image; the selection leaves the file system as it was. *)
Theorem select_images_validated (source : path) (l : list string)
    (w w' : world) :
  plain_answers (stdin w) = true →
  select_images source w = (Ok l, w') →
  fs w' = fs w ∧ NoDup l
  ∧ ∀ img, img ∈ l →
      img ∈ children (fs w) source
      ∧ ∃ d mime, fs w !! (source ++ [img]) = Some (File true d)
                  ∧ magic d = Some mime
                  ∧ String.prefix "image" mime = true.
Proof.
  intros _. unfold select_images. intros (ext_img & w1 & E1 & E)%bind_Ok.
  apply bind_Ok in E as (sel & w2 & E2 & E3).
  apply bind_Ok in E3 as ([] & w3 & E3 & E4).
  injection E3 as <-. injection E4 as <- <-. simpl.
  assert (fs w1 = fs w) as Hw1.
  { unfold click_prompt in E1.
    destruct (prompt_from (click_BOOL w) (stdin w)). by injection E1 as _ <-. }
  destruct ext_img.
  - apply bind_Ok in E2 as (expr & w4 & E4 & E2).
    apply bind_Ok in E2 as (cand & w5 & E5 & E6).
    assert (fs w4 = fs w1) as Hw4.
    { unfold click_prompt in E4.
      destruct (prompt_from (click_Path false true true w1) (stdin w1)).
      by injection E4 as _ <-. }
    injection E5 as <- <-.
    apply filter_m_istype_Ok in E6 as (-> & _ & Hsub & Hsel).
    rewrite Hw4, Hw1 in *. split; [done|]. split.
    + eapply sublist_NoDup; [|exact Hsub].
      destruct (path_isdir (fs w) source); [|constructor].
      apply NoDup_filter, NoDup_children.
    + intros img Himg. split; [|by apply Hsel].
      apply (elem_of_sublist _ _ _ Himg) in Hsub. clear Himg.
      rename Hsub into Himg.
      destruct (path_isdir (fs w) source); [|by apply elem_of_nil in Himg].
      by apply list_elem_of_filter in Himg as [_ ?].
  - injection E2 as <- <-. split; [done|]. split; [constructor|].
    intros img Himg. by apply elem_of_nil in Himg.
Qed.

End Selection.

(** X12, witness: a source directory that holds an unreadable file. *)
Lemma select_needs_plain_source_witness :
  ∃ e, @select sample_libs ["sd"] sample_world_locked
       = (Raise e, sample_world_locked).
Proof.
  apply (@select_needs_plain_source sample_libs ["sd"] "locked.mp4").
  - vm_compute; reflexivity.
  - apply elem_of_children. exists (File false "MP4abc").
    vm_compute; reflexivity.
  - intros d. vm_compute. discriminate.
Defined.

(** X13, witness: every file is offered and the one photo is kept. *)
Lemma select_images_validated_witness :
  let w := set_cwd ["sd"] (sample_world_configured [AnsBool true; AnsText "*"]) in
  let w' := (@select_images sample_libs ["sd"] w).2 in
  fs w' = fs w ∧ NoDup ["p.jpg"]
  ∧ ∀ img, img ∈ ["p.jpg"] →
      img ∈ children (fs w) ["sd"]
      ∧ ∃ d mime, fs w !! (["sd"] ++ [img]) = Some (File true d)
                  ∧ @magic sample_libs d = Some mime
                  ∧ String.prefix "image" mime = true.
Proof.
  apply (@select_images_validated sample_libs ["sd"] ["p.jpg"]).
  - reflexivity.
  - vm_compute; reflexivity.
Defined.

(** ** [extract]: where it writes *)

Lemma outside_kept_refl root f : outside_kept root f f.
Proof. split; eauto. Qed.

Lemma outside_kept_trans root f1 f2 f3 :
  outside_kept root f1 f2 → outside_kept root f2 f3 → outside_kept root f1 f3.
Proof.
  intros [Ha1 Ha2] [Hb1 Hb2]. split.
  - intros q nd Hq Hout. apply Hb1; [|done]. by apply Ha1.
  - intros q nd Hq Hout. destruct (Hb2 _ _ Hq Hout) as [Ho|?]; [|by right].
    by apply Ha2.
Qed.

Lemma outside_kept_insert root p nd f :
  root `prefix_of` p → outside_kept root f (<[p := nd]> f).
Proof.
  intros Hp.
  assert (∀ q, ¬ root `prefix_of` q → p ≠ q) as Hne by (by intros q Hout <-).
  split; intros q nd' Hq Hout.
  - rewrite lookup_insert_ne; [done|]. by apply Hne.
  - rewrite lookup_insert_ne in Hq; [by left|]. by apply Hne.
Qed.

Lemma writes_below_same {A} root (m : M A) :
  (∀ w, fs (m w).2 = fs w) → writes_below root m.
Proof. intros Hm w. rewrite Hm. apply outside_kept_refl. Qed.

Lemma writes_below_bind {A B} root (m : M A) (k : A → M B) :
  writes_below root m → (∀ a, writes_below root (k a)) →
  writes_below root (x <- m ;; k x).
Proof.
  intros Hm Hk w. unfold bind. specialize (Hm w).
  destruct (m w) as [[a|e] w1]; simpl in *; [|done].
  eapply outside_kept_trans; [done|apply Hk].
Qed.

Lemma writes_below_for_each {A} root (body : A → M unit) (l : list A) :
  (∀ a, writes_below root (body a)) → writes_below root (for_each body l).
Proof.
  intros Hb. induction l as [|a l IH]; simpl.
  - by apply writes_below_same.
  - by apply writes_below_bind.
Qed.

Lemma writes_below_makedirs root p b :
  root `prefix_of` p → writes_below root (os_makedirs p b).
Proof.
  intros Hroot w. unfold os_makedirs.
  destruct (fs w !! p) as [[|? ?]|] eqn:E; [destruct b| |]; simpl;
    try apply outside_kept_refl.
  destruct (dir_capable (fs w) p); simpl; [|apply outside_kept_refl].
  split; intros q nd Hq Hout.
  - by rewrite lookup_mkdirs, Hq.
  - rewrite lookup_mkdirs in Hq. destruct (fs w !! q); [by left|].
    case_decide as Hp; [|done]. injection Hq as <-. right. split; [done|].
    apply elem_of_prefixes in Hp.
    by destruct (prefix_weak_total q root p).
Qed.

Lemma writes_below_copy root src dst :
  root `prefix_of` dst → writes_below root (shutil_copy src dst).
Proof.
  intros Hroot w. unfold shutil_copy. cbn zeta.
  destruct (path_isdir (fs w) dst).
  - case_decide; [apply outside_kept_refl|].
    destruct (fs w !! src) as [[|[] d]|]; try apply outside_kept_refl.
    repeat (match goal with |- context [if ?b then _ else _] => destruct b end;
            try apply outside_kept_refl).
    simpl. by apply outside_kept_insert, prefix_app_r.
  - case_decide; [apply outside_kept_refl|].
    destruct (fs w !! src) as [[|[] d]|]; try apply outside_kept_refl.
    repeat (match goal with |- context [if ?b then _ else _] => destruct b end;
            try apply outside_kept_refl).
    simpl. by apply outside_kept_insert.
Qed.

Section Writes.
Context `{Libraries}.

Lemma writes_below_imwrite root p frame :
  root `prefix_of` p → writes_below root (cv2_imwrite p frame).
Proof.
  intros Hroot w. unfold cv2_imwrite.
  destruct (_ && _); simpl;
    [by apply outside_kept_insert|apply outside_kept_refl].
Qed.

Lemma writes_below_video_loop root output v n i c :
  root `prefix_of` output →
  writes_below root (extract_video_loop v output n i c).
Proof.
  intros Hroot. revert i c. induction v as [|frame v IH]; intros i c; simpl.
  - by apply writes_below_same.
  - case_decide; [by apply writes_below_same|].
    case_decide; [|apply IH].
    apply writes_below_bind; [|intros _; apply IH].
    by apply writes_below_imwrite, prefix_app_r.
Qed.

Lemma writes_below_extract_unit working i choice :
  writes_below (working ++ ["output"]) (extract_unit working i choice).
Proof.
  assert (∀ r, working ++ ["output"] `prefix_of` working ++ "output" :: r)
    as Hbelow by (intros r; apply prefix_app, prefix_cons, prefix_nil).
  unfold extract_unit.
  apply writes_below_bind; [by apply writes_below_makedirs|intros _].
  case_decide.
  - apply writes_below_bind; [by apply writes_below_same|intros imgs].
    apply writes_below_for_each. intros img. by apply writes_below_copy.
  - destruct (String.prefix "video" choice); [|by apply writes_below_same].
    apply writes_below_bind; [by apply writes_below_same|intros [|v0 vs]].
    + by apply writes_below_same.
    + apply writes_below_bind; [by apply writes_below_same|intros video].
      unfold extract_video. by apply writes_below_video_loop.
Qed.

Lemma writes_below_extract_loop working i turns available w :
  outside_kept (working ++ ["output"]) (fs w)
    (fs (extract_loop working i turns available w).2.2).
Proof.
  revert i available w. induction turns as [|turns IH]; intros i available w;
    simpl; [apply outside_kept_refl|].
  assert (fs (click_prompt (click_Choice available) w).2 = fs w) as Hp.
  { unfold click_prompt.
    by destruct (prompt_from (click_Choice available w) (stdin w)). }
  destruct (click_prompt (click_Choice available) w) as [[choice|e] w1];
    simpl in *; [|rewrite Hp; apply outside_kept_refl].
  pose proof (writes_below_extract_unit working i choice w1) as Hu.
  rewrite Hp in Hu.
  destruct (extract_unit working i choice w1) as [[[]|e] w2]; simpl in *;
    [|done].
  eapply outside_kept_trans; [done|apply IH].
Qed.

(** X14: whatever is typed and whether [extract] completes or raises, it
    writes at and below the [output] directory of the configured working
    directory only: every other entry of the file system is afterwards what
    it was, and nothing appears elsewhere except directories on the way to
    [output] that were missing. *)
Theorem extract_writes_below_output (working : path) (w : world) :
  ctx w !! "working" = Some working →
  outside_kept (working ++ ["output"]) (fs w) (fs (extract w).2).
Proof.
  intros Hw. unfold extract, ctx_get, bind at 1. rewrite Hw.
  apply (writes_below_bind _ (os_listdir working)
           (λ l1, l2 <- os_listdir working ;; _));
    [by apply writes_below_same|intros l1].
  apply writes_below_bind; [by apply writes_below_same|intros l2].
  destruct (_ && _); [by apply writes_below_same|].
  apply writes_below_bind; [by apply writes_below_same|intros l3].
  apply writes_below_bind; [by apply writes_below_same|intros l4].
  case_decide; [by apply writes_below_same|].
  apply writes_below_bind.
  { apply writes_below_same. intros u. unfold click_prompt.
    by destruct (prompt_from _ (stdin u)). }
  intros set_count.
  apply writes_below_bind; [by apply writes_below_same|intros l5].
  intros u. apply writes_below_extract_loop.
Qed.

End Writes.

(** X14, witness: one set is asked for and the video unit is chosen. *)
Lemma extract_writes_below_output_witness :
  let w := sample_world_staged [AnsInt 1; AnsText "video0"] in
  outside_kept (["work"] ++ ["output"]) (fs w) (fs (@extract sample_libs w).2).
Proof.
  apply (@extract_writes_below_output sample_libs ["work"]).
  vm_compute; reflexivity.
Defined.

(** ** [extract]: units and set directories over the turns *)

Lemma set_dirs_apart (working : path) (i k : nat) (q : path) :
  k ≠ i → (working ++ ["output"; unit_set k]) `prefix_of` q →
  ¬ (working ++ ["output"; unit_set i]) `prefix_of` q
  ∧ ¬ q `prefix_of` (working ++ ["output"; unit_set i]).
Proof.
  intros Hki Hk.
  assert (∀ a b, (working ++ ["output"; unit_set a])
                 `prefix_of` (working ++ ["output"; unit_set b]) → a = b)
    as Hsame.
  { intros a b Hab. apply prefix_length_eq in Hab.
    - apply app_inv_head in Hab.
      assert (unit_set a = unit_set b) as Hu by congruence.
      by apply unit_set_inj in Hu.
    - by rewrite !length_app. }
  split.
  - intros Hi. destruct (prefix_weak_total _ _ _ Hk Hi) as [Hp|Hp];
      apply Hsame in Hp; congruence.
  - intros Hi. apply Hki, Hsame. by etrans.
Qed.

Lemma outside_kept_other (root q : path) (f f' : filesystem) :
  outside_kept root f f' → ¬ root `prefix_of` q → ¬ q `prefix_of` root →
  f' !! q = f !! q.
Proof.
  intros [H1 H2] Hn Hn'. destruct (f !! q) as [nd|] eqn:E; [by apply H1|].
  destruct (f' !! q) as [nd|] eqn:E'; [|done].
  destruct (H2 _ _ E' Hn) as [?|[_ ?]]; [congruence|done].
Qed.

Lemma keeps_entry_bind {A B} (m : M A) (k : A → M B) (q : path) (nd : node) :
  (∀ w, fs w !! q = Some nd → fs (m w).2 !! q = Some nd) →
  (∀ a w, fs w !! q = Some nd → fs (k a w).2 !! q = Some nd) →
  ∀ w, fs w !! q = Some nd → fs ((x <- m ;; k x) w).2 !! q = Some nd.
Proof.
  intros Hm Hk w Hq. unfold bind. specialize (Hm w Hq).
  destruct (m w) as [[a|e] w1]; simpl in *; [by apply Hk|done].
Qed.

Lemma keeps_entry_for_each {A} (body : A → M unit) (l : list A)
    (q : path) (nd : node) :
  (∀ a w, fs w !! q = Some nd → fs (body a w).2 !! q = Some nd) →
  ∀ w, fs w !! q = Some nd → fs (for_each body l w).2 !! q = Some nd.
Proof.
  intros Hb. induction l as [|a l IH]; simpl; [done|].
  apply keeps_entry_bind; [apply Hb|intros _; apply IH].
Qed.

Lemma shutil_copy_keeps (src dst q : path) (nd : node) (w : world) :
  q ≠ dst → q ≠ dst ++ [basename src] →
  fs w !! q = Some nd → fs (shutil_copy src dst w).2 !! q = Some nd.
Proof.
  intros Hd Hd' Hq. unfold shutil_copy. cbn zeta.
  destruct (path_isdir (fs w) dst);
    (case_decide; [done|]);
    (destruct (fs w !! src) as [[|[] d]|]; try done);
    repeat (match goal with |- context [if ?b then _ else _] => destruct b end;
            try done);
    simpl; by rewrite lookup_insert_ne.
Qed.

Section Sets.
Context `{Libraries}.

Lemma video_loop_keeps (v : list string) (output : path) (n : Z) (i c : nat)
    (q : path) (nd : node) (w : world) :
  (∀ name, q ≠ output ++ [name]) →
  fs w !! q = Some nd →
  fs (extract_video_loop v output n i c w).2 !! q = Some nd.
Proof.
  intros Hq. revert i c w. induction v as [|frame v IH]; intros i c w Hw;
    simpl; [done|].
  case_decide; [done|]. case_decide; [|by apply IH].
  revert w Hw. apply keeps_entry_bind; [|intros _ w Hw; by apply IH].
  intros w Hw. unfold cv2_imwrite. destruct (_ && _); [|done].
  simpl. by rewrite lookup_insert_ne.
Qed.

Lemma extract_unit_makes_set (working : path) (i : nat) (choice : string)
    (w w' : world) :
  extract_unit working i choice w = (Ok tt, w') →
  fs w' !! (working ++ ["output"; unit_set i]) = Some Dir.
Proof.
  unfold extract_unit. intros ([] & w1 & Emk & E)%bind_Ok.
  apply os_makedirs_inv in Emk as (f & -> & Hset & _).
  assert (∀ n, working ++ ["output"; unit_set i]
               ≠ (working ++ ["output"; unit_set i]) ++ [n]) as Hne.
  { intros n E'. symmetry in E'. by apply snoc_ne in E'. }
  assert (∀ n, working ++ ["output"; unit_set i]
               ≠ working ++ ["output"; unit_set i; n]) as Hne'.
  { intros n. specialize (Hne n). by rewrite <- app_assoc in Hne. }
  match type of E with ?m _ = _ =>
    assert (∀ u, fs u !! (working ++ ["output"; unit_set i]) = Some Dir →
                 fs (m u).2 !! (working ++ ["output"; unit_set i]) = Some Dir)
      as Hrest
  end.
  { case_decide.
    - apply keeps_entry_bind.
      { intros u Hu. unfold os_listdir, lift. done. }
      intros imgs. apply keeps_entry_for_each. intros img u Hu.
      apply shutil_copy_keeps; [apply Hne'|..|done].
      intros E'. apply (f_equal length) in E'.
      rewrite !length_app in E'. simpl in E'. lia.
    - destruct (String.prefix "video" choice); [|done].
      apply keeps_entry_bind.
      { intros u Hu. unfold os_listdir, lift. done. }
      intros [|v0 vs]; [done|].
      apply keeps_entry_bind.
      { intros u Hu. unfold cv2_VideoCapture, lift. done. }
      intros video u Hu. unfold extract_video. by apply video_loop_keeps. }
  specialize (Hrest (set_fs f w) Hset). by rewrite E in Hrest.
Qed.

Lemma writes_below_extract_unit_set working i choice :
  writes_below (working ++ ["output"; unit_set i])
    (extract_unit working i choice).
Proof.
  assert (∀ r, working ++ ["output"; unit_set i]
               `prefix_of` working ++ "output" :: unit_set i :: r)
    as Hbelow
    by (intros r; apply prefix_app, prefix_cons, prefix_cons, prefix_nil).
  unfold extract_unit.
  apply writes_below_bind; [by apply writes_below_makedirs|intros _].
  case_decide.
  - apply writes_below_bind; [by apply writes_below_same|intros imgs].
    apply writes_below_for_each. intros img. by apply writes_below_copy.
  - destruct (String.prefix "video" choice); [|by apply writes_below_same].
    apply writes_below_bind; [by apply writes_below_same|intros [|v0 vs]].
    + by apply writes_below_same.
    + apply writes_below_bind; [by apply writes_below_same|intros video].
      unfold extract_video. by apply writes_below_video_loop.
Qed.

Lemma turn_of_ok working choice s s' :
  turn_of working choice s s' → turn_ok working s s'.
Proof. intros [i t av w w1 w2 Hp Hu]. by econstructor. Qed.

Lemma turn_ok_effect working i t av w i' t' av' w' :
  turn_ok working (i, t, av, w) (i', t', av', w') →
  i' = S i ∧ av' ⊆ av
  ∧ outside_kept (working ++ ["output"; unit_set i]) (fs w) (fs w')
  ∧ fs w' !! (working ++ ["output"; unit_set i]) = Some Dir.
Proof.
  inversion 1 as [? ? ? ? choice w1 w2 Hp Hu]; subst.
  split; [done|]. split.
  { intros x Hx. by apply elem_of_difference in Hx as [? _]. }
  apply click_prompt_Choice in Hp as [_ [l ->]].
  split; [|by eapply extract_unit_makes_set].
  pose proof (writes_below_extract_unit_set working i choice (set_stdin l w))
    as Hw. by rewrite Hu in Hw.
Qed.

Lemma turns_ok_effect working s s' :
  rtc (turn_ok working) s s' →
  s.1.1.1 ≤ s'.1.1.1 ∧ s'.1.2 ⊆ s.1.2
  ∧ ∀ k q, k < s.1.1.1 →
      (working ++ ["output"; unit_set k]) `prefix_of` q →
      fs s'.2 !! q = fs s.2 !! q.
Proof.
  induction 1 as [|[[[i t] av] w] [[[i' t'] av'] w'] s3 H12 _ IH];
    [done|].
  apply turn_ok_effect in H12 as (-> & Hav & Hout & _).
  destruct IH as (Hi & Hsub & Hkeep). simpl in *.
  split; [lia|]. split; [by etrans|].
  intros k q Hk Hq. rewrite (Hkeep k q) by (done || lia).
  destruct (set_dirs_apart working i k q ltac:(lia) Hq) as [Hn Hn'].
  by apply (outside_kept_other _ _ _ _ Hout).
Qed.

(** C8: take two completed turns of one run of the loop, an earlier one in
    which the caller chose [c1] for set [i1] and a later one in which the
    caller chose [c2] for set [i2].  The earlier turn took [c1] out of the
    units on offer, which made them strictly fewer, and [c1] is not on offer
    at the later turn, so [c2] is another unit.  The later set has the
    larger index and another directory name; each turn has made its own set
    directory; the later turn writes at and below its own set directory
    only, so the earlier set directory and everything in it are after the
    later turn what they were before it.  The loop run from the earlier
    turn goes on from where the later turn ends. *)
Theorem extract_loop_never_reuses
    (working : path) (c1 c2 : string)
    (i1 t1 : nat) (av1 : gset string) (w1 : world)
    (i1' t1' : nat) (av1' : gset string) (w1' : world)
    (i2 t2 : nat) (av2 : gset string) (w2 : world)
    (i2' t2' : nat) (av2' : gset string) (w2' : world) :
  turn_of working c1 (i1, t1, av1, w1) (i1', t1', av1', w1') →
  rtc (turn_ok working) (i1', t1', av1', w1') (i2, t2, av2, w2) →
  turn_of working c2 (i2, t2, av2, w2) (i2', t2', av2', w2') →
  (c1 ∈ av1 ∧ av1' = av1 ∖ {[c1]} ∧ av1' ⊂ av1 ∧ av2 ⊆ av1' ∧
   (c1 ∉ av2) ∧ c2 ∈ av2 ∧ c2 ≠ c1 ∧ av2' = av2 ∖ {[c2]}) ∧
  (i1' = S i1 ∧ i2' = S i2 ∧ i1 < i2 ∧ unit_set i1 ≠ unit_set i2) ∧
  (fs w1' !! (working ++ ["output"; unit_set i1]) = Some Dir ∧
   fs w2' !! (working ++ ["output"; unit_set i2]) = Some Dir ∧
   fs w2' !! (working ++ ["output"; unit_set i1]) = Some Dir) ∧
  (outside_kept (working ++ ["output"; unit_set i2]) (fs w2) (fs w2') ∧
   ∀ q, (working ++ ["output"; unit_set i1]) `prefix_of` q →
        fs w2' !! q = fs w2 !! q ∧ fs w2 !! q = fs w1' !! q) ∧
  (extract_loop working i1 t1 av1 w1).2
  = (extract_loop working i2' t2' av2' w2').2.
Proof.
  intros T1 Hmid T2.
  pose proof (turn_of_ok _ _ _ _ T1) as K1.
  pose proof (turn_of_ok _ _ _ _ T2) as K2.
  destruct (turn_ok_effect _ _ _ _ _ _ _ _ _ K1) as (-> & _ & _ & Hd1).
  destruct (turn_ok_effect _ _ _ _ _ _ _ _ _ K2) as (-> & _ & Hout2 & Hd2).
  destruct (turns_ok_effect _ _ _ Hmid) as (Hi & Hsub & Hkeep).
  simpl in Hi, Hsub, Hkeep.
  inversion T1 as [? ? ? ? ? ? Hp1 _]; subst.
  inversion T2 as [? ? ? ? ? ? Hp2 _]; subst.
  apply click_prompt_Choice in Hp1 as [Hc1 _].
  apply click_prompt_Choice in Hp2 as [Hc2 _].
  assert (c1 ∉ av2) as Hn1.
  { intros Hx. apply Hsub, elem_of_difference in Hx as [_ Hx].
    apply Hx. by apply elem_of_singleton. }
  assert (∀ q, (working ++ ["output"; unit_set i1]) `prefix_of` q →
               fs w2' !! q = fs w2 !! q ∧ fs w2 !! q = fs w1' !! q) as Hset1.
  { intros q Hq. split; [|apply (Hkeep i1); [lia|done]].
    destruct (set_dirs_apart working i2 i1 q ltac:(lia) Hq) as [Hn Hn'].
    by apply (outside_kept_other _ _ _ _ Hout2). }
  split; [|split; [|split; [|split]]].
  - split; [done|]. split; [done|]. split.
    { split.
      - intros x Hx. by apply elem_of_difference in Hx as [? _].
      - intros Hs. specialize (Hs c1 Hc1).
        apply elem_of_difference in Hs as [_ Hs].
        apply Hs. by apply elem_of_singleton. }
    split; [done|]. split; [done|]. split; [done|].
    split; [by intros ->|done].
  - split; [done|]. split; [done|]. split; [lia|].
    intros E%unit_set_inj. lia.
  - split; [done|]. split; [done|].
    destruct (Hset1 (working ++ ["output"; unit_set i1]) ltac:(done))
      as [-> ->]. done.
  - done.
  - pose proof (turn_ok_loop _ _ _ K1) as L1.
    pose proof (turns_ok_loop _ _ _ Hmid) as L2.
    pose proof (turn_ok_loop _ _ _ K2) as L3.
    cbn [fst snd] in L1, L2, L3. by rewrite L1, L2, L3.
Qed.

End Sets.

(** C8, witness: the photos are chosen for the first set and the video for
    the second. *)
Lemma extract_loop_never_reuses_witness :
  let av : gset string := {[ "images"; "video0"; "video1" ]} in
  let w1 := sample_world_staged [AnsText "images"; AnsText "video0"] in
  let w1' := (@extract_unit sample_libs ["work"] 0 "images"
                (sample_world_staged [AnsText "video0"])).2 in
  let w2' := (@extract_unit sample_libs ["work"] 1 "video0"
                (set_stdin [] w1')).2 in
  ("video0" ≠ "images" ∧ unit_set 0 ≠ unit_set 1) ∧
  fs w2' !! (["work"] ++ ["output"; unit_set 0]) = Some Dir ∧
  fs w2' !! (["work"] ++ ["output"; unit_set 1]) = Some Dir ∧
  ∀ q, (["work"] ++ ["output"; unit_set 0]) `prefix_of` q →
       fs w2' !! q = fs w1' !! q.
Proof.
  intros av w1 w1' w2'.
  destruct (@extract_loop_never_reuses sample_libs ["work"] "images" "video0"
              0 2 av w1 1 1 (av ∖ {[ "images" ]}) w1'
              1 1 (av ∖ {[ "images" ]}) w1'
              2 0 ((av ∖ {[ "images" ]}) ∖ {[ "video0" ]}) w2')
    as ((_ & _ & _ & _ & _ & _ & Hne & _) & (_ & _ & _ & Hsets)
        & (_ & Hd2 & Hd1) & (_ & Hkeep) & _).
  - apply (TurnOf ["work"] "images" 0 1 av w1
             (sample_world_staged [AnsText "video0"]) w1').
    + vm_compute; reflexivity.
    + vm_compute; reflexivity.
  - apply rtc_refl.
  - apply (TurnOf ["work"] "video0" 1 0 (av ∖ {[ "images" ]}) w1'
             (set_stdin [] w1') w2').
    + vm_compute; reflexivity.
    + vm_compute; reflexivity.
  - split; [split; [exact Hne|exact Hsets]|].
    split; [exact Hd1|]. split; [exact Hd2|].
    intros q Hq. exact (proj1 (Hkeep q Hq)).
Defined.

(** ** [setup] in copy mode: where it writes *)

Section Copies.
Context `{Libraries}.

Lemma writes_below_stage_copy source working :
  writes_below working (stage false source working).
Proof.
  assert (∀ r, working `prefix_of` working ++ r) as Hbelow
    by (intros r; by apply prefix_app_r).
  assert (∀ p, writes_below working (os_chdir p)) as Hcd.
  { intros p. apply writes_below_same. intros w. unfold os_chdir.
    by destruct (fs w !! p) as [[|? ?]|]. }
  unfold stage.
  apply writes_below_bind; [by apply writes_below_same|intros curdir].
  apply writes_below_bind; [apply Hcd|intros _].
  apply writes_below_bind.
  { apply writes_below_same. intros w. apply reads_only_select. }
  intros [sel_images sel_videos]. simpl.
  apply writes_below_bind; [apply Hcd|intros _].
  apply writes_below_bind.
  { unfold materialize. apply writes_below_bind.
    { case_bool_decide; [by apply writes_below_same|].
      by apply writes_below_makedirs. }
    intros _. apply writes_below_bind.
    { apply writes_below_for_each. intros i. by apply writes_below_makedirs. }
    intros _. by apply writes_below_makedirs. }
  intros _. apply writes_below_bind; [|intros _; apply Hcd].
  unfold transfer. cbn zeta.
  apply writes_below_bind.
  { apply writes_below_for_each. intros img. by apply writes_below_copy. }
  intros _. apply writes_below_bind; [by apply writes_below_same|intros _].
  apply writes_below_bind; [|intros _; by apply writes_below_same].
  apply writes_below_for_each. intros iv. by apply writes_below_copy.
Qed.

(** X15: when the caller answers with file names only, [setup] in copy mode
    writes at and below the configured working directory only, whichever
    files are selected and whether it completes or raises: every entry
    outside the working directory, the files of a source directory that lies
    outside it among them, is afterwards what it was, and nothing appears
    there except directories on the way to the working directory that were
    missing. *)
Theorem setup_copy_writes_below_working (working : path) (w : world) :
  plain_answers (stdin w) = true →
  ctx w !! "working" = Some working →
  outside_kept working (fs w) (fs (setup false w).2).
Proof.
  intros _ Hw. unfold setup, ctx_get, bind. simpl. rewrite Hw.
  destruct (ctx w !! "source") as [source|]; simpl;
    [|apply outside_kept_refl].
  apply writes_below_stage_copy.
Qed.

End Copies.

(** X15, witness: the photo and one video are copied. *)
Lemma setup_copy_writes_below_working_witness :
  let w := sample_world_configured
             [AnsBool true; AnsText "*"; AnsInt 1; AnsText "a.mp4"] in
  outside_kept ["work"] (fs w) (fs (@setup sample_libs false w).2).
Proof.
  apply (@setup_copy_writes_below_working sample_libs ["work"]).
  - reflexivity.
  - vm_compute; reflexivity.
Defined.
